(** * pysim: the FastSim in-train force engine

    A shallow embedding of the dynamics core of [pysim] (state derivative
    [FastSimODE], integrator [ode23simple], steady-state initialisation
    [ssCouplerDisplacement] / [FastSimM], car grouping [defineCarGroups]
    and the configuration checks of [defineCouplers]) together with the
    properties the specification states about them.

    Numbers.  Python floats are idealised as exact rationals [Q]: every
    index computation, comparison and branch of the source is kept, the
    rounding error of IEEE arithmetic is not.  Where the source tests a
    value for NaN (the steady-state initial state) the values are the
    rationals extended with the two infinities and NaN ([xfloat]).
    Exceptions are results of the error monad [result]. *)

From Stdlib Require Import ZArith QArith Qround Qabs Qminmax Lia Lqa String Ascii.
From stdpp Require Import base option list gmap strings.

Local Open Scope Z_scope.

(** ** Exceptions and the error monad *)

Inductive exn : Type :=
| IndexError
| KeyError
| ValueError (msg : string)
| AssertionError (msg : string)
| NonFinite.

Inductive result (A : Type) : Type :=
| Ok (a : A)
| Raise (e : exn).
Arguments Ok {A} a.
Arguments Raise {A} e.

Definition rbind {A B} (m : result A) (k : A -> result B) : result B :=
  match m with
  | Ok a => k a
  | Raise e => Raise e
  end.

Notation "'do' x <- m ; k" := (rbind m (fun x => k))
  (at level 10, x name, m at level 100, k at level 200).
Notation "'do' ' p <- m ; k" := (rbind m (fun x => match x with p => k end))
  (at level 10, p pattern, m at level 100, k at level 200).

Definition rmap {A B} (g : A -> B) (m : result A) : result B :=
  do a <- m; Ok (g a).

Definition of_option {A} (e : exn) (o : option A) : result A :=
  match o with
  | Some a => Ok a
  | None => Raise e
  end.

Fixpoint rmapM {A B} (f : A -> result B) (l : list A) : result (list B) :=
  match l with
  | [] => Ok []
  | a :: l' => do b <- f a; do bs <- rmapM f l'; Ok (b :: bs)
  end.

Fixpoint rfoldM {A S} (f : S -> A -> result S) (s : S) (l : list A) : result S :=
  match l with
  | [] => Ok s
  | a :: l' => do s' <- f s a; rfoldM f s' l'
  end.

(** [l[i]] for a non-negative index: out of range raises [IndexError]. *)
Definition idx {A} (l : list A) (i : nat) : result A :=
  of_option IndexError (l !! i).

(** [l[i]] for a Python integer: a negative index counts from the end. *)
Definition py_index {A} (l : list A) (i : Z) : result A :=
  let len := Z.of_nat (length l) in
  if decide (0 <= i < len) then idx l (Z.to_nat i)
  else if decide (- len <= i < 0) then idx l (Z.to_nat (len + i))
  else Raise IndexError.

(** [l[i] = v]: an assignment out of range raises [IndexError]. *)
Definition set_idx {A} (l : list A) (i : nat) (v : A) : result (list A) :=
  if decide (i < length l)%nat then Ok (<[i:=v]> l) else Raise IndexError.

(** ** Rational helpers *)

Definition Qltb (x y : Q) : bool := negb (Qle_bool y x).
Definition Qzero (x : Q) : bool := Qeq_bool x 0.

(** Python's [round] on a float: to the nearest integer, ties to even. *)
Definition round_half_even (q : Q) : Z :=
  let f := Qfloor q in
  let r := (q - inject_Z f)%Q in
  match (r ?= 1 # 2)%Q with
  | Lt => f
  | Gt => f + 1
  | Eq => if Z.even f then f else f + 1
  end.

Definition zerosQ (n : nat) : list Q := replicate n 0%Q.

(** Machine constants of IEEE binary64. *)
Definition float_eps : Q := 1 # (2 ^ 52).
Definition float_tiny : Q := 1 # (2 ^ 1022).

(** ** The state derivative, [FastSimODE.py] *)

Record ode_out : Type := mk_ode_out {
  Xdot : list Q;
  Frope_used : list Q;
  F_out : list Q;
  Fmin_out : list Q;
  Fmax_out : list Q
}.

(** [A[r, c]] on a matrix kept as the list of its rows. *)
Definition tab (A : list (list Q)) (r : Z) (c : nat) : result Q :=
  do row <- py_index A r; idx row c.

(** Lines 62-73: the bracket of [DX] on the uniform grid.  [frac] is taken
    from the unclamped [idx0], before the bounds check. *)
Definition bracket (m : Z) (x0 dx DX : Q) : Z * Z * Q :=
  let idx := ((DX - x0) / dx)%Q in
  let idx0 := Qfloor idx in
  let frac := (idx - inject_Z idx0)%Q in
  let idx1 := idx0 + 1 in
  if idx0 <? 0 then (0, 1, frac)
  else if idx0 >? m - 2 then (m - 2, m - 1, frac)
  else (idx0, idx1, frac).

(** Lines 82-87: the force state limited to the envelope. *)
Definition saturate (F1 lo hi : Q) : Q :=
  if Qltb F1 lo then lo else if Qltb hi F1 then hi else F1.

Section FastSimODE.
Variables (T : list Q) (FROPE : list (list Q)) (n : nat).
Variables (b c M : list Q).
Variables (x2all : list Q) (Fmax2all Fmin2all : list (list Q)).
Variables (Klocked Kawu : list Q).

(** Lines 40-41: the row of [FROPE] used at time [t].  A zero time step
    makes the quotient infinite or NaN, on which [round] raises. *)
Definition rope_index (t : Q) : result nat :=
  do T1 <- idx T 1;
  do T0 <- idx T 0;
  let dt := (T1 - T0)%Q in
  if Qzero dt then Raise NonFinite
  else Ok (Z.to_nat (Z.min (Z.of_nat (length T))
                           (Z.max 0 (round_half_even ((t - T0) / dt))))).

(** Lines 53-91, one pass of the loop over the couplers: the envelope
    bounds, the realised force and the net force of group [i]. *)
Definition coupler_force (X Frope : list Q) (m : Z) (x0 dx : Q) (i : nat)
  : result (Q * Q * Q * Q) :=
  do DX <- idx X (i + 2 * n)%nat;
  do DV <- idx X (i + n)%nat;
  do F1 <- idx X i;
  let '(idx0, idx1, frac) := bracket m x0 dx DX in
  do lo0 <- tab Fmin2all idx0 i;
  do lo1 <- tab Fmin2all idx1 i;
  let Fmin_i := (lo0 * (1 - frac) + lo1 * frac)%Q in
  do hi0 <- tab Fmax2all idx0 i;
  do hi1 <- tab Fmax2all idx1 i;
  let Fmax_i := (hi0 * (1 - frac) + hi1 * frac)%Q in
  let F_i := saturate F1 Fmin_i Fmax_i in
  do fr <- idx Frope i;
  do bi <- idx b i;
  do ci <- idx c i;
  Ok (Fmin_i, Fmax_i, F_i, (F_i - fr + bi * DV + ci * DV * DX * F_i)%Q).

(** [x / y]; a zero divisor gives an infinity or NaN in numpy, which
    leaves the finite numbers of this model. *)
Definition qdiv (x y : Q) : result Q :=
  if Qzero y then Raise NonFinite else Ok (x / y)%Q.

(** Lines 95-97: the absolute acceleration of each vehicle. *)
Definition accel (e : list Q) (i : nat) : result Q :=
  do ei <- idx e i;
  do Mi <- idx M i;
  match i with
  | O => qdiv ei Mi
  | S j => do ej <- idx e j; qdiv (ei - ej) Mi
  end.

(** Lines 103-106, one pass of the loop over the first [n-1] groups. *)
Definition write_group (X Fv a : list Q) (xd : list Q) (i : nat)
  : result (list Q) :=
  do Ki <- idx Klocked i;
  do DVi <- idx X (i + n)%nat;
  do Ka <- idx Kawu i;
  do Fi <- idx Fv i;
  do F1i <- idx X i;
  do xd <- set_idx xd i (Ki * DVi + Ka * (Fi - F1i))%Q;
  do a1 <- idx a (i + 1)%nat;
  do a0 <- idx a i;
  do xd <- set_idx xd (i + n)%nat (a1 - a0)%Q;
  set_idx xd (i + 2 * n)%nat DVi.

(** Lines 108-111, the last group, with the indices [i], [2*i] and
    [3*i] of the source for [i = n-1]. *)
Definition write_last (X Fv : list Q) (xd : list Q) : result (list Q) :=
  let i := (n - 1)%nat in
  do Ki <- idx Klocked i;
  do X2i <- idx X (2 * i)%nat;
  do Ka <- idx Kawu i;
  do Fi <- idx Fv i;
  do Xi <- idx X i;
  do xd <- set_idx xd i (Ki * X2i + Ka * (Fi - Xi))%Q;
  do xd <- set_idx xd (2 * i)%nat 0%Q;
  set_idx xd (3 * i)%nat X2i.

Definition FastSimODE (t : Q) (X : list Q) : result ode_out :=
  do k <- rope_index t;
  do Frope <- idx FROPE k;
  let m := Z.of_nat (length x2all) in
  do x1 <- idx x2all 1;
  do x0 <- idx x2all 0;
  let dx := (x1 - x0)%Q in
  if Qzero dx then Raise NonFinite else
  do per <- rmapM (coupler_force X Frope m x0 dx) (seq 0 n);
  let Fmin := ((fun p => p.1.1.1) <$> per) ++ zerosQ (length Frope - n) in
  let Fmax := ((fun p => p.1.1.2) <$> per) ++ zerosQ (length Frope - n) in
  let Fv := (fun p => p.1.2) <$> per in
  let e := (fun p => p.2) <$> per in
  do a <- rmapM (accel e) (seq 0 (Nat.max 1 n));
  do xd <- rfoldM (write_group X Fv a) (zerosQ (3 * n)) (seq 0 (n - 1));
  do xd <- write_last X Fv xd;
  Ok (mk_ode_out xd Frope Fv Fmin Fmax).
End FastSimODE.

(** ** The integrator, [ode23simple.py] *)

Definition rtol : Q := 1 # 100.
Definition atol : Q := 1 # 1000.
Definition threshold : Q := (atol / rtol)%Q.

(** Elementwise operations on vectors of one shape; operands of different
    lengths raise, as numpy does for shapes it cannot broadcast. *)
Fixpoint zipQ (op : Q -> Q -> Q) (u v : list Q) : result (list Q) :=
  match u, v with
  | [], [] => Ok []
  | a :: u', b :: v' => do w <- zipQ op u' v'; Ok (op a b :: w)
  | _, _ => Raise (ValueError "operands could not be broadcast together")
  end.

Definition vscale (k : Q) (v : list Q) : list Q := Qmult k <$> v.
Definition vdivs (v : list Q) (k : Q) : list Q := (fun y => y / k)%Q <$> v.
Definition vadd (u v : list Q) : result (list Q) := zipQ Qplus u v.

(** [norm(v, inf)]: the largest absolute value; numpy raises on an empty
    vector. *)
Definition norm_inf (v : list Q) : result Q :=
  match v with
  | [] => Raise (ValueError "zero-size array to reduction operation")
  | a :: v' => Ok (fold_left (fun m y => Qmax m (Qabs y)) v' (Qabs a))
  end.

(** [norm(np.divide(e, np.clip(scale, threshold, None)), inf) + tiny] *)
Definition scaled_norm (e scale : list Q) : result Q :=
  do q <- zipQ (fun ei si => ei / Qmax si threshold)%Q e scale;
  do m <- norm_inf q;
  Ok (m + float_tiny)%Q.

(** The loop variables of [ode23simple], with the fields of [stats]. *)
Record ode_state : Type := mk_ode_state {
  ode_t : Q;
  ode_x : list Q;
  ode_h : Q;
  ode_s1 : list Q;
  knext : nat;
  tnext : Q;
  tout : list Q;
  xout : list (list Q);
  stats_err : Z;
  stats_hmax : Q;
  stats_hmin : Q;
  stats_nsteps : Z;
  stats_nfailed : Z
}.

(** What one pass of the loop computes before it decides to accept:
    the step it attempts, whether it lands on an output time, [hmin],
    the new point, its slope and the error estimate. *)
Record attempt : Type := mk_attempt {
  att_h : Q;
  attout : bool;
  att_hmin : Q;
  tnew : Q;
  xnew : list Q;
  att_s4 : list Q;
  err_est : Q
}.

(** Lines 68-73: [h] limited to [hmax] from above, then to [hmin] from
    below. *)
Definition clamp_step (hmax hmin h : Q) : Q :=
  let h := if Qltb hmax h then hmax else h in
  if Qltb h hmin then hmin else h.

(** Lines 66-79: the step attempted at time [t] and the [attout] flag. *)
Definition choose_step (hmax t tnext h : Q) : Q * bool :=
  let hmin := (16 * float_eps * Qabs t)%Q in
  let h := clamp_step hmax hmin h in
  if Qle_bool (tnext - t) ((11 # 10) * h) then ((tnext - t)%Q, true)
  else (h, false).


Section ode23simple.
(** [f t x] is the call [FastSimODE(t, x, T, FROPE, ...)] with the fixed
    model parameters, reduced to the derivative it returns; [pow13 y] is
    the float power [y ** (1/3)]. *)
Variable f : Q -> list Q -> result (list Q).
Variable pow13 : Q -> Q.

Section loop.
Variables (TOUT : list Q) (tEnd hmax : Q) (nout : nat).

(** Lines 66-92. *)
Definition ode_attempt (s : ode_state) : result attempt :=
  let t := ode_t s in
  let x := ode_x s in
  let s1 := ode_s1 s in
  let hmin := (16 * float_eps * Qabs t)%Q in
  let '(h, att) := choose_step hmax t (tnext s) (ode_h s) in
  do x2 <- vadd x (vscale (h / 2) s1);
  do s2 <- f (t + h / 2)%Q x2;
  do x3 <- vadd x (vscale (3 * h / 4) s2);
  do s3 <- f (t + 3 * h / 4)%Q x3;
  let tn := (t + h)%Q in
  do k12 <- vadd (vscale 2 s1) (vscale 3 s2);
  do k123 <- vadd k12 (vscale 4 s3);
  do xn <- vadd x (vdivs (vscale h k123) 9);
  do s4 <- f tn xn;
  do e12 <- vadd (vscale (-5) s1) (vscale 6 s2);
  do e123 <- vadd e12 (vscale 8 s3);
  do e1234 <- zipQ Qminus e123 (vscale 9 s4);
  let e := vdivs (vscale h e1234) 72 in
  do sc <- zipQ Qmax (Qabs <$> x) (Qabs <$> xn);
  do er <- scaled_norm e sc;
  Ok (mk_attempt h att hmin tn xn s4 er).







End loop.

(** Lines 39-63: the state at the entry of the loop. *)
Definition ode_init (TOUT x0 : list Q) : result ode_state :=
  do t0 <- idx TOUT 0;
  let x := x0 in
  let to := TOUT in
  let xo := replicate (length TOUT) (zerosQ (length x)) in
  do to <- set_idx to 0 t0;
  do xo <- set_idx xo 0 x;
  do s1 <- f t0 x;
  do r <- scaled_norm s1 (Qabs <$> x);
  let h := ((8 # 10) * pow13 rtol / r)%Q in
  do tn <- idx TOUT 1;
  Ok (mk_ode_state t0 x h s1 1 tn to xo 0 h h 0 0).


End ode23simple.

(** A cube root for running the model at concrete inputs: the integer
    cube root by bisection on the bits, and from it [y ** (1/3)] rounded
    down to six decimals.  The theorems about the integrator hold for
    every [pow13]. *)
Fixpoint cbrt_bits (k : nat) (n r : Z) : Z :=
  match k with
  | O => r
  | S k' =>
      let r' := r + 2 ^ Z.of_nat k' in
      cbrt_bits k' n (if r' * r' * r' <=? n then r' else r)
  end.

Definition Zcbrt (n : Z) : Z :=
  cbrt_bits (Z.to_nat (Z.log2 n / 3 + 1)) n 0.

Definition pow13_approx (y : Q) : Q :=
  (inject_Z (Zcbrt (Qfloor (y * inject_Z (10 ^ 18)))) / inject_Z (10 ^ 6))%Q.

(** ** A one-group train for concrete runs

    Grid [0; 1; 2], upper envelope [0; 10; 20], lower envelope
    [-10; 0; 10], unit mass, no damping, [Klocked = 3], [Kawu = 7]. *)
Definition one_group (T : list Q) (FROPE : list (list Q)) (t : Q)
    (X : list Q) : result ode_out :=
  FastSimODE T FROPE 1 [0]%Q [0]%Q [1]%Q [0; 1; 2]%Q
    [[0]; [10]; [20]]%Q [[-10]; [0]; [10]]%Q [3]%Q [7]%Q t X.

Definition one_group_slope (T : list Q) (FROPE : list (list Q)) (t : Q)
    (X : list Q) : result (list Q) :=
  rmap Xdot (one_group T FROPE t X).

(** A two-group train on the same grid, both groups with the envelopes
    of [one_group], unit masses, no damping, [Klocked = [3; 4]] and
    [Kawu = [7; 8]]. *)
Definition two_groups (T : list Q) (FROPE : list (list Q)) (t : Q)
    (X : list Q) : result ode_out :=
  FastSimODE T FROPE 2 [0; 0]%Q [0; 0]%Q [1; 1]%Q [0; 1; 2]%Q
    [[0; 0]; [10; 10]; [20; 20]]%Q [[-10; -10]; [0; 0]; [10; 10]]%Q
    [3; 4]%Q [7; 8]%Q t X.

(** ** Floats that may be infinite or NaN *)

Inductive xfloat : Type :=
| Fin (q : Q)
| PInf
| NInf
| NaN.

Definition isnan (v : xfloat) : bool :=
  match v with NaN => true | _ => false end.

Definition isfinite (v : xfloat) : bool :=
  match v with Fin _ => true | _ => false end.

Definition xsub (u v : xfloat) : xfloat :=
  match u, v with
  | NaN, _ | _, NaN => NaN
  | Fin x, Fin y => Fin (x - y)
  | PInf, PInf | NInf, NInf => NaN
  | PInf, _ | _, NInf => PInf
  | NInf, _ | _, PInf => NInf
  end.

(** [np.sign] *)
Definition xsign (v : xfloat) : xfloat :=
  match v with
  | NaN => NaN
  | PInf => Fin 1
  | NInf => Fin (-1)
  | Fin q => Fin (match (q ?= 0)%Q with Lt => -1 | Eq => 0 | Gt => 1 end)
  end.

(** [v < 0] *)
Definition xlt0 (v : xfloat) : bool :=
  match v with
  | Fin q => Qltb q 0
  | NInf => true
  | PInf | NaN => false
  end.

(** [v * 0] *)
Definition xmul0 (v : xfloat) : xfloat :=
  match v with
  | Fin q => Fin (q * 0)
  | _ => NaN
  end.

(** [v[np.isnan(v)] = 0] on one component. *)
Definition nan_to_zero (v : xfloat) : xfloat :=
  if isnan v then Fin 0 else v.

(** ** [np.interp] on finite tables

    The sample search of numpy returns, for a key inside the range of
    [xp], the index [j = i - 1] of the first [i >= 1] with [key < xp[i]];
    on non-decreasing [xp] its bisection finds the same index. *)
Fixpoint first_above (key : Q) (arr : list Q) (i : nat) : nat :=
  match arr with
  | [] => i
  | a :: arr' => if Qltb key a then i else first_above key arr' (S i)
  end.

Definition interp_fin (x : Q) (xp fp : list Q) : result Q :=
  do lo <- idx xp 0;
  do hi <- idx xp (length xp - 1);
  if Qltb hi x then idx fp (length fp - 1)
  else if Qltb x lo then idx fp 0
  else
    let j := (first_above x (tail xp) 1 - 1)%nat in
    do yj <- idx fp j;
    if decide (j = length xp - 1)%nat then Ok yj
    else
      do xj <- idx xp j;
      if Qeq_bool xj x then Ok yj
      else
        do xj1 <- idx xp (j + 1);
        do yj1 <- idx fp (j + 1);
        Ok ((yj1 - yj) / (xj1 - xj) * (x - xj) + yj)%Q.

Definition np_interp (x : xfloat) (xp fp : list Q) : result xfloat :=
  if decide (length xp = 0)%nat
  then Raise (ValueError "array of sample points is empty")
  else if decide (length fp = length xp) then
    match x with
    | NaN => Ok NaN
    | PInf => do y <- idx fp (length fp - 1); Ok (Fin y)
    | NInf => do y <- idx fp 0; Ok (Fin y)
    | Fin q => do y <- interp_fin q xp fp; Ok (Fin y)
    end
  else Raise (ValueError "fp and xp are not of the same length.").

(** ** Steady-state displacement, [ssCouplerDisplacement.py] *)

(** [A[:, i]] and [A.shape[1]] on a matrix kept as the list of its rows. *)
Definition column {A} (rows : list (list A)) (i : nat) : result (list A) :=
  rmapM (fun row => idx row i) rows.

Definition ncols {A} (rows : list (list A)) : nat :=
  match rows with
  | [] => 0
  | r :: _ => length r
  end.

(** [col + np.arange(1, len(col) + 1) * e] *)
Definition perturb (col : list Q) (e : Q) : list Q :=
  imap (fun k v => v + inject_Z (Z.of_nat k + 1) * e)%Q col.

(** Line 23: [np.max(np.abs(col)) * eps * 2] *)
Definition eps_slope (col : list Q) : result Q :=
  do m <- norm_inf col; Ok (m * float_eps * 2)%Q.

Section ssCouplerDisplacement.
Variables (x2all : list Q) (Fmin2all Fmax2all : list (list Q)).
Variable Frope : list (list xfloat).

(** Line 22: the sign of the first difference of the rope force of
    coupler [i]; the series is taken to have two samples at least. *)
Definition rope_trend (i : nat) : result xfloat :=
  do r0 <- idx Frope 0;
  do f0 <- idx r0 i;
  match Frope !! 1%nat with
  | None => Raise (ValueError "truth value of an empty array")
  | Some r1 => do f1 <- idx r1 i; Ok (xsign (xsub f1 f0))
  end.

(** Lines 21-31, one pass of the loop over the couplers. *)
Definition ss_one (i : nat) : result xfloat :=
  do d <- rope_trend i;
  do cmax <- column Fmax2all i;
  do e <- eps_slope cmax;
  do r0 <- idx Frope 0;
  do f0 <- idx r0 i;
  if xlt0 d then
    do cmin <- column Fmin2all i;
    np_interp f0 (perturb cmin e) x2all
  else
    np_interp f0 (perturb cmax e) x2all.

Definition ssCouplerDisplacement : result (list xfloat) :=
  rmapM ss_one (seq 0 (ncols Fmax2all)).
End ssCouplerDisplacement.

(** ** Initial state, [FastSimM.py] lines 69-84 *)

Inductive X0_arg : Type :=
| X0_str (s : string)
| X0_scalar (v : xfloat)
| X0_vector (v : list xfloat).

Definition lower_ascii (a : ascii) : ascii :=
  let k := nat_of_ascii a in
  if ((65 <=? k)%nat && (k <=? 90)%nat)%bool then ascii_of_nat (k + 32) else a.

Fixpoint lower (s : string) : string :=
  match s with
  | EmptyString => EmptyString
  | String a s' => String (lower_ascii a) (lower s')
  end.

Definition initial_state (n : nat) (x2all : list Q)
    (Fmin2all Fmax2all : list (list Q)) (Frope : list (list xfloat))
    (X0 : X0_arg) : result (list xfloat) :=
  match X0 with
  | X0_str s =>
      if String.eqb (lower s) "zero" then Ok (replicate (3 * n) (Fin 0))
      else if String.eqb (lower s) "steady-state" then
        do F10 <- idx Frope 0;
        let DV0 := xmul0 <$> F10 in
        do DX0 <- ssCouplerDisplacement x2all Fmin2all Fmax2all Frope;
        Ok (nan_to_zero <$> (F10 ++ DV0 ++ DX0))
      else Raise (ValueError "FastSimM: invalid initial state option")
  | X0_scalar v =>
      Ok (replicate (3 * n)
            (match v with Fin q => Fin (0 + q) | _ => v end))
  | X0_vector [v] =>
      Ok (replicate (3 * n)
            (match v with Fin q => Fin (0 + q) | _ => v end))
  | X0_vector v => Ok v
  end.

(** ** Car groups, [defineCarGroups.py] *)

(** The grouping limit as Python passes it: [None], a number, a dict of
    vehicle counts, or a value of another type. *)
Inductive dcar_arg : Type :=
| DNone
| DNum (v : Z)
| DDict (d : gmap string Z)
| DOther.

Definition has_key (d : gmap string Z) (k : string) : bool :=
  bool_decide (is_Some (d !! k)).

Definition get_key (d : gmap string Z) (k : string) : result Z :=
  of_option KeyError (d !! k).

(** Lines 41-42. *)
Definition default_dcar (dcar : dcar_arg) : dcar_arg :=
  match dcar with
  | DNone => DDict (<["norm" := 15]> (<["eocc" := 5]> ∅))
  | _ => dcar
  end.

(** Lines 44-53. *)
Definition check_dcar (dcar : dcar_arg) : result unit :=
  match dcar with
  | DDict d =>
      if (has_key d "eocc" && has_key d "norm")
         || (has_key d "eocc100" && has_key d "eocc050" && has_key d "norm")
      then Ok tt
      else Raise (ValueError "dcar: unexpected fields")
  | DNum _ => Ok tt
  | _ => Raise (ValueError "dcar: unknown type")
  end.

(** Lines 62-72: the limit vector and the coupler types after mapping. *)
Definition type_setup (dcar : dcar_arg) (couplerTypeIndex : list Z)
  : result (list Z * list Z) :=
  match dcar with
  | DDict d =>
      if has_key d "eocc100" then
        do a <- get_key d "norm";
        do b <- get_key d "eocc100";
        do c <- get_key d "eocc050";
        Ok ([a; b; c], couplerTypeIndex)
      else if has_key d "eocc" then
        do a <- get_key d "norm";
        do b <- get_key d "eocc";
        Ok ([a; b], (fun t => if 1 <? t then 2 else t) <$> couplerTypeIndex)
      else Raise (ValueError "dcar: unexpected fields")
  | DNum v =>
      Ok ([v], (fun t => if 0 <? t then 1 else t) <$> couplerTypeIndex)
  | _ => Raise (ValueError "dcar: unknown type")
  end.

(** Lines 76-79: the size limit of the group of a vehicle of type [t]. *)
Definition group_size_limit (dcar : dcar_arg) (dcarVec : list Z) (t : Z)
  : result Z :=
  match dcar with
  | DNum v => Ok v
  | _ => py_index dcarVec (t - 1)
  end.

(** The variables of the scan: the size [k] of the open group, the number
    [kg] of groups, and the last vehicle of each group. *)
Record scan_state : Type := mk_scan {
  scan_k : Z;
  scan_kg : nat;
  scan_cargroup : list Z
}.

(** Lines 74-88, one pass for vehicle [i]. *)
Definition scan_step (dcar : dcar_arg) (dcarVec ctyp : list Z)
    (s : scan_state) (i : nat) : result scan_state :=
  do tp <- idx ctyp (i - 1);
  do lim <- group_size_limit dcar dcarVec tp;
  do ti <- idx ctyp i;
  let '(kg, k) :=
    if (lim <? scan_k s + 1) || negb (tp =? ti)
    then (S (scan_kg s), 0) else (scan_kg s, scan_k s) in
  let k := k + 1 in
  let cg := scan_cargroup s in
  if decide (length cg < kg)%nat
  then Ok (mk_scan k kg (cg ++ [Z.of_nat i + 1]))
  else do cg' <- set_idx cg (kg - 1) (Z.of_nat i + 1); Ok (mk_scan k kg cg').

(** Lines 55-91. *)
Definition scan_groups (dcar : dcar_arg) (dcarVec ctyp : list Z)
  : result (list Z) :=
  do s <- rfoldM (scan_step dcar dcarVec ctyp) (mk_scan 1 1 [1])
            (seq 1 (length ctyp - 1));
  Ok (take (scan_kg s) (scan_cargroup s)).

(** [np.round(np.linspace(start, stop, num))[k]] as an integer. *)
Definition linspace_round (start stop : Z) (num k : nat) : Z :=
  if decide (k = num - 1)%nat then stop
  else
    let step := (inject_Z (stop - start) / inject_Z (Z.of_nat num - 1))%Q in
    round_half_even (inject_Z (Z.of_nat k) * step + inject_Z start).

Section equalize.
Variables (ctyp cargroup : list Z).

(** [ctyp[cargroup[j] - 1]] *)
Definition group_type (j : nat) : result Z :=
  do v <- idx cargroup j; py_index ctyp (v - 1).

(** Lines 101-107: the last group of the run of one coupler type that
    starts at group [i1]. *)
Fixpoint run_end (i1 : nat) (js : list nat) : result nat :=
  match js with
  | [] => Ok (length cargroup - 1)%nat
  | j :: js' =>
      do tj <- group_type j;
      do t1 <- group_type i1;
      if negb (tj =? t1) then Ok (j - 1)%nat else run_end i1 js'
  end.

(** Lines 97-113, one pass of the [while] loop at [i]. *)
Definition equalize_step (eq : list Z) (i : nat) : result (list Z * nat) :=
  let cg0 := 0 :: cargroup in
  do ig1 <- idx cargroup i;
  let i1 := i in
  do i2 <- run_end i1 (seq (i + 1) (length cargroup - (i + 1)));
  do ig2 <- idx cargroup i2;
  do lo <- idx cg0 i1;
  do hi <- idx cg0 (i2 + 1);
  let num := (i2 - i1 + 2)%nat in
  do eq' <- rfoldM (fun eq j => set_idx eq j (linspace_round lo hi num (j - i1 + 1)))
              eq (seq i1 (i2 - i1));
  Ok (eq', (i2 + 1)%nat).

(** The [while i < len(cargroup) - 1] loop; [None] when the fuel runs
    out. *)
Fixpoint equalize_loop (fuel : nat) (eq : list Z) (i : nat)
  : option (result (list Z)) :=
  if decide (i < length cargroup - 1)%nat then
    match fuel with
    | O => None
    | S fuel' =>
        match equalize_step eq i with
        | Ok (eq', i') => equalize_loop fuel' eq' i'
        | Raise e => Some (Raise e)
        end
    end
  else Some (Ok eq).
End equalize.

(** The switches of [varargin]. *)
Definition has_switch (sw : string) (varargin : list string) : bool :=
  existsb (String.eqb sw) varargin.

Definition defineCarGroups (dcar : dcar_arg) (couplerTypeIndex : list Z)
    (varargin : list string) : option (result (list Z)) :=
  let dcar := default_dcar dcar in
  match check_dcar dcar with
  | Raise e => Some (Raise e)
  | Ok _ =>
      match (do '(dcarVec, ctyp) <- type_setup dcar couplerTypeIndex;
             do cg <- scan_groups dcar dcarVec ctyp; Ok (ctyp, cg)) with
      | Raise e => Some (Raise e)
      | Ok (ctyp, cargroup) =>
          if has_switch "-equalizeSize" varargin
          then equalize_loop ctyp cargroup (length cargroup) cargroup 0
          else Some (Ok cargroup)
      end
  end.

(** ** Coupler specifications and their checks, [defineCouplers.py]

    The model covers the call with [preloads] and [strokes] given (as
    [initFastSim] makes it) up to the last configuration check, and
    returns [coupler['spec']]; the slopes [Kmin], [Kmax] and the tables
    built from the specifications are left out. *)

Inductive coupler_kind : Type :=
| Standard
| EOCC (preload stroke : Q).

Record coupler_spec : Type := mk_spec {
  spec_type : coupler_kind;
  Funits : string;
  Xunits : string;
  spec_xmax : list Q;
  spec_Fmax : list Q;
  spec_xmin : list Q;
  spec_Fmin : list Q;
  spec_Klocked : Q;
  spec_B : Q;
  spec_Bcushion : Q
}.

(** Lines 65-80: the standard draft gear. *)
Definition standard_spec : coupler_spec :=
  mk_spec Standard "kips" "in"
    [0; 47 # 100; 74 # 100; 195 # 100; 494 # 100]%Q
    [0; 0; 27; 153; 304]%Q
    [0; 47 # 100; 74 # 100; 47 # 10]%Q
    [0; 0; 27; 58 * (11 # 10)]%Q
    ((103 - 35) / ((15 # 10) - (144 # 100)) / 4)%Q
    ((2 # 10) * 15)%Q
    (1 # 100000)%Q.

(** Lines 90-92: the preload saturation displacement [x1] and the stroke
    correction [dx1] of an EOCC coupler. *)
Definition eocc_x1 (preload : Q) : Q :=
  (preload / (100 / ((61 # 100) - (43 # 100))) + (43 # 100))%Q.

Definition eocc_dx1 (stroke : Q) : Q :=
  ((- (15 # 10) + (62 # 100)) * stroke / 28)%Q.

(** Lines 83-124: the EOCC coupler with its assertion on the stroke. *)
Definition eocc_spec (preload stroke : Q) : result coupler_spec :=
  let df0 := (15 # 1000)%Q in
  let df1 := (10 * preload / 100 * stroke / 28)%Q in
  let df3 := 25%Q in
  let df2 := 1%Q in
  let df4 := 30%Q in
  let xdeadzone := (43 # 100)%Q in
  let x1 := eocc_x1 preload in
  let dx1 := eocc_dx1 stroke in
  if Qltb x1 (stroke + dx1) then
    let dx2 := (62 # 100)%Q in
    let dx3 := (68 # 100)%Q in
    let xmax := [0; xdeadzone; x1; stroke + dx1; stroke + dx2; stroke + dx3]%Q in
    let Fmax := [0; df0; preload; preload + df1; preload + df1 + df3;
                 preload + df4 + df1 + df3]%Q in
    let xmax1 := (stroke + dx2)%Q in
    let xmax2 := (stroke + dx3)%Q in
    let ymax1 := (preload + df1 + df3)%Q in
    let ymax2 := (preload + df4 + df1 + df3)%Q in
    let mmin := 0%Q in
    let mmax := ((ymax2 - ymax1) / (xmax2 - xmax1))%Q in
    let bmin := df2 in
    let bmax := (ymax1 - mmax * xmax1)%Q in
    let xintercept := (- (bmax - bmin) / (mmax - mmin))%Q in
    Ok (mk_spec (EOCC preload stroke) "kips" "in" xmax Fmax
          [0; xintercept; xmax2]%Q
          [0; mmin * xintercept + bmin; mmax * xmax2 + bmax]%Q
          575 ((4 # 100) * 7)%Q ((15 # 100) * 5 * 100 / preload)%Q)
  else Raise (AssertionError "stroke is too small").

(** Lines 58-126, one pass of the loop over the coupler types. *)
Definition type_spec (preload stroke : Q) : result coupler_spec :=
  if Qzero preload then Ok standard_spec else eocc_spec preload stroke.

(** Lines 157-163: the units of all types must agree. *)
Definition check_units (spec : list coupler_spec) : result unit :=
  if decide (1 < size (list_to_set (Funits <$> spec) : gset string))%nat
  then Raise (ValueError "Force units not common")
  else if decide (1 < size (list_to_set (Xunits <$> spec) : gset string))%nat
  then Raise (ValueError "Displacment units not common")
  else Ok tt.

Definition shape {A} (rows : list (list A)) : nat * nat :=
  (length rows, ncols rows).

Definition defineCouplers (numTypesInGroup preloads strokes : list (list Q))
  : result (list coupler_spec) :=
  if negb (bool_decide (shape preloads = shape strokes))
  then Raise (AssertionError "preload and strokes must be the same size")
  else if negb (bool_decide (ncols preloads = ncols numTypesInGroup))
  then Raise (AssertionError
         "preload and numTypesInGroup must have the same number of columns")
  else
    do spec <- rmapM (fun i => do p <- tab preloads 0 i;
                               do s <- tab strokes 0 i;
                               type_spec p s)
                 (seq 0 (ncols preloads));
    do first <- idx spec 0;
    do _ <- check_units spec;
    Ok spec.

(** ** Set-up before the simulation, [initFastSim.py] and [runFastSimM.py]

    [runFastSimM] calls [initFastSim], which calls [defineCarGroups] and
    then [defineCouplers], and only afterwards [FastSimM], which runs the
    integrator.  [coupler_inputs] stands for the tables [initFastSim]
    derives from the groups, [simulate] for the call of [FastSimM]. *)
Section runFastSimM.
Context {R : Type}.
Variable coupler_inputs :
  list Z -> list (list Q) * list (list Q) * list (list Q).
Variable simulate : list Z -> list coupler_spec -> result R.

Definition initFastSim (dcar : dcar_arg) (couplerTypeAll : list Z)
  : option (result (list Z * list coupler_spec)) :=
  let dcar := match dcar with DNone => DNum 5 | _ => dcar end in
  let n0 := Z.of_nat (length couplerTypeAll) in
  match defineCarGroups dcar couplerTypeAll ["-equalizeSize"%string] with
  | None => None
  | Some r =>
      Some (do cargroup <- r;
            do last <- py_index cargroup (-1);
            let cargroup :=
              if negb (last =? n0) then cargroup ++ [n0] else cargroup in
            let '(nt, pl, st) := coupler_inputs cargroup in
            do coupler <- defineCouplers nt pl st;
            Ok (cargroup, coupler))
  end.

Definition runFastSimM (dcar : dcar_arg) (couplerTypeAll : list Z)
  : option (result R) :=
  match initFastSim dcar couplerTypeAll with
  | None => None
  | Some r => Some (do '(cargroup, coupler) <- r; simulate cargroup coupler)
  end.
End runFastSimM.

(** ** Specification predicates *)


(** The grouping limits the validation accepts. *)
Definition recognized_dcar (dcar : dcar_arg) : Prop :=
  match dcar with
  | DNum _ => True
  | DDict d =>
      (is_Some (d !! "eocc") /\ is_Some (d !! "norm")) \/
      (is_Some (d !! "eocc100") /\ is_Some (d !! "eocc050") /\
       is_Some (d !! "norm"))
  | _ => False
  end.

(** A partition of the vehicles into groups, given by the last vehicle
    (counted from 1) of each group: the group after the boundary [lo] ends
    at [hi] when it is not empty, all its vehicles have the coupler type
    of its first one, and it has no more vehicles than the limit of that
    type. *)
Section partition.
Variables (ctyp : list Z) (limit : Z -> result Z).

Definition group_ok (lo hi : Z) : Prop :=
  lo < hi /\
  exists t l, limit t = Ok l /\ hi - lo <= l /\
    forall v, lo <= v < hi -> ctyp !! Z.to_nat v = Some t.

Fixpoint groups_ok (lo : Z) (cargroup : list Z) : Prop :=
  match cargroup with
  | [] => True
  | hi :: rest => group_ok lo hi /\ groups_ok hi rest
  end.

Definition partition_ok (cargroup : list Z) : Prop :=
  groups_ok 0 cargroup /\ last cargroup = Some (Z.of_nat (length ctyp)).
End partition.

(** The last boundary of a list of groups that starts at [lo]. *)
Definition lastZ (lo : Z) (cargroup : list Z) : Z := default lo (last cargroup).

(** The invariant of the scan after vehicle [i]: the closed groups form a
    partition of the vehicles before the open group, which runs from
    [lo] to [i], has [k] vehicles of one type and is within its limit. *)
Definition scan_inv (ctyp : list Z) (limit : Z -> result Z) (i : nat)
    (s : scan_state) : Prop :=
  exists closed t l,
    scan_cargroup s = closed ++ [Z.of_nat i + 1] /\
    scan_kg s = S (length closed) /\
    groups_ok ctyp limit 0 closed /\
    scan_k s = Z.of_nat i + 1 - lastZ 0 closed /\
    1 <= scan_k s /\
    limit t = Ok l /\ scan_k s <= l /\
    forall v, lastZ 0 closed <= v <= Z.of_nat i ->
      ctyp !! Z.to_nat v = Some t.

(** [np.round(k * step + start)] with [step = (stop - start) / g]: the
    entries of [linspace_round start stop (g + 1)]. *)
Definition lin (start stop : Z) (g k : nat) : Z :=
  round_half_even (inject_Z (Z.of_nat k)
                   * (inject_Z (stop - start) / inject_Z (Z.of_nat g))
                   + inject_Z start).

(** The invariant of the equalising loop at group [i]: the groups before
    [i] have been redistributed into a partition that ends where the
    original ones end, the groups from [i] on are untouched. *)
Definition equalize_inv (ctyp : list Z) (limit : Z -> result Z)
    (cargroup : list Z) (i : nat) (eq : list Z) : Prop :=
  length eq = length cargroup /\
  (i <= length cargroup)%nat /\
  drop i eq = drop i cargroup /\
  groups_ok ctyp limit 0 (take i eq) /\
  lastZ 0 (take i eq) = lastZ 0 (take i cargroup).

(** ** The optional arguments of [defineCouplers], lines 25-47 *)

(** [a is not None and len(a) > 0] *)
Definition given {A} (a : option (list A)) : bool :=
  match a with
  | Some (_ :: _) => true
  | _ => false
  end.

(** The matrices [numTypesInGroup], [preloads] and [strokes] with which
    the body of the function runs. *)
Definition coupler_args (numTypesInGroup : list (list Q))
    (preloads strokes : option (list (list Q)))
  : result (list (list Q) * list (list Q) * list (list Q)) :=
  let pl := default [] preloads in
  let st := default [] strokes in
  if given preloads && negb (given strokes) then
    Ok (numTypesInGroup, pl, (fun row : list Q => (fun _ : Q => 28%Q) <$> row) <$> pl)
  else if negb (given preloads) && given strokes then
    Raise (ValueError "preload must be given if stroke if given")
  else if negb (given preloads) && negb (given strokes) then
    let ngroups := length numTypesInGroup in
    let ntypes := ncols numTypesInGroup in
    let nt := if (ntypes <? 3)%nat
              then (fun row : list Q => row ++ zerosQ (3 - ntypes)) <$> numTypesInGroup
              else numTypesInGroup in
    let ntypes := ncols nt in
    if (ntypes <=? 3)%nat then
      Ok (nt, replicate ngroups (take ntypes [0; 100; 50]%Q),
              replicate ngroups (take ntypes [0; 28; 28]%Q))
    else Raise (ValueError "when only numTypesInGroup is given it must be ngroups x ntypes, where ntypes = 1,2 or 3")
  else Ok (numTypesInGroup, pl, st).

(** [defineCouplers] as called with optional arguments. *)
Definition defineCouplers_call (numTypesInGroup : list (list Q))
    (preloads strokes : option (list (list Q)))
  : result (list coupler_spec) :=
  do '(nt, pl, st) <- coupler_args numTypesInGroup preloads strokes;
  defineCouplers nt pl st.

(** ** The parameters of a group of couplers, [defineCouplers.py]
    lines 204-209 *)

(** [np.sum] *)
Definition qsum (l : list Q) : Q := fold_right Qplus 0%Q l.

(** Elementwise [u / v] on vectors of one shape. *)
Fixpoint vdiv (u v : list Q) : result (list Q) :=
  match u, v with
  | [], [] => Ok []
  | a :: u', b :: v' =>
      do q <- qdiv a b; do w <- vdiv u' v'; Ok (q :: w)
  | _, _ => Raise (ValueError "operands could not be broadcast together")
  end.

(** [1 / np.sum(counts / K)]: the couplers of a group act in series. *)
Definition series_param (counts K : list Q) : result Q :=
  do terms <- vdiv counts K; qdiv 1 (qsum terms).

(** [grouped['Klocked']], [grouped['B']] and [grouped['Bcushion']]. *)
Definition grouped_params (numTypesInGroup : list (list Q))
    (spec : list coupler_spec) : result (list Q * list Q * list Q) :=
  do K <- rmapM (fun row => series_param row (spec_Klocked <$> spec))
            numTypesInGroup;
  do B <- rmapM (fun row => series_param row (spec_B <$> spec))
            numTypesInGroup;
  do Bc <- rmapM (fun row => series_param row (spec_Bcushion <$> spec))
             numTypesInGroup;
  Ok (K, B, Bc).

(** ** The simulated span, [runFastSimM.py] lines 80-94 and
    [FastSimM.py] lines 51-54 *)

(** [np.where(cond)[0][0]] and [np.where(cond)[0][-1]]: the first and the
    last index at which the condition holds, if any. *)
Fixpoint find_first (p : Q -> bool) (l : list Q) : option nat :=
  match l with
  | [] => None
  | a :: l' => if p a then Some O else S <$> find_first p l'
  end.

Fixpoint find_last (p : Q -> bool) (l : list Q) : option nat :=
  match l with
  | [] => None
  | a :: l' =>
      match find_last p l' with
      | Some k => Some (S k)
      | None => if p a then Some O else None
      end
  end.

(** [runFastSimM], lines 80-94: the start and the end time of the
    simulation, read from [t_in] at the first distance sample at or after
    [distStart] and at the first one beyond [distEnd]. *)
Definition sim_span (Dist_in t_in : list Q) (distStart distEnd : Q)
  : result (Q * Q) :=
  let i1 := default O (find_first (fun d => Qle_bool distStart d) Dist_in) in
  let i2 := default (length Dist_in)
              (find_first (fun d => Qltb distEnd d) Dist_in) in
  do tstart <- idx t_in i1;
  do tend <- idx t_in i2;
  Ok (tstart, tend).

(** [FastSimM], lines 51-54 and the slice [T[k1:k2+1]] of line 87: the
    output times handed to the integrator. *)
Definition output_times (T : list Q) (tstart tend : Q) : result (list Q) :=
  do k1 <- of_option IndexError (find_first (fun v => Qle_bool tstart v) T);
  do k2 <- of_option IndexError (find_last (fun v => Qle_bool v tend) T);
  Ok (take (k2 + 1 - k1) (drop k1 T)).

(** [runFastSimM], line 129: [np.maximum(fmin, np.minimum(fmax, F1))]. *)
Definition limit_force (fmin fmax F1 : Q) : Q := Qmax fmin (Qmin fmax F1).

(** ** Gross and tare weights, [optspec_dtm.py] *)

(** Lines 91-102 for one car of load weight [w] and length [len]: the
    gross and the tare weight. *)
Definition dtm_car (w len : Q) : Q * Q :=
  let gw := if Qltb len 100 then Qmax w 140
            else Qmax (Qmax ((164 # 100) * len - 104) 140) w in
  let tw_est := (gw / (42 # 10))%Q in
  if Qltb w tw_est then ((w * (42 # 10))%Q, w) else (gw, tw_est).

(** [GrossWeight] and [TareWeight] start as copies of [LoadWeight] and
    are overwritten car by car. *)
Definition optspec_dtm (LoadWeight LoadLength : list Q)
  : result (list Q * list Q) :=
  rfoldM (fun '(gross, tare) k =>
            do w <- idx LoadWeight k;
            do len <- idx LoadLength k;
            let '(gw, tw) := dtm_car w len in
            do gross <- set_idx gross k gw;
            do tare <- set_idx tare k tw;
            Ok (gross, tare))
         (LoadWeight, LoadWeight) (seq 0 (length LoadWeight)).

(** ** Further specification predicates *)

(** Tables that increase, weakly or strictly, with the index. *)
Definition nondecreasing (l : list Q) : Prop :=
  forall i j a b, (i <= j)%nat -> l !! i = Some a -> l !! j = Some b ->
    (a <= b)%Q.

Definition increasing (l : list Q) : Prop :=
  forall i j a b, (i < j)%nat -> l !! i = Some a -> l !! j = Some b ->
    (a < b)%Q.

(** The invariant of the integrator on its outputs: the times reported
    are the times requested, the cursor points at the next one, and the
    state and every output row have the width of the initial state. *)
Definition outputs_shaped (TOUT x0 : list Q) (s : ode_state) : Prop :=
  Forall2 Qeq (tout s) TOUT /\
  TOUT !! knext s = Some (tnext s) /\
  length (ode_x s) = length x0 /\
  length (ode_s1 s) = length x0 /\
  Forall (fun row => length row = length x0) (xout s).

(** The invariant on the statistics. *)
Definition stats_ok (s : ode_state) : Prop :=
  (stats_err s = 0 \/ stats_err s = 1) /\
  (stats_hmin s <= stats_hmax s)%Q /\
  0 <= stats_nsteps s /\ 0 <= stats_nfailed s.

(** The invariant on the progress through strictly increasing output
    times: the time is before the next output time, or the last output
    time has been reached and its row holds the state. *)
Definition progress (TOUT : list Q) (s : ode_state) : Prop :=
  let nout := (length TOUT - 1)%nat in
  (knext s <= nout)%nat /\
  TOUT !! knext s = Some (tnext s) /\
  (((ode_t s < tnext s)%Q /\ Z.of_nat (knext s) - 1 <= stats_nsteps s) \/
   ((ode_t s == tnext s)%Q /\ knext s = nout /\
    xout s !! nout = Some (ode_x s) /\ Z.of_nat nout <= stats_nsteps s)).

(** Every group but the last is full or is followed by a vehicle of
    another coupler type. *)
Fixpoint groups_full (ctyp : list Z) (limit : Z -> result Z) (lo : Z)
    (cargroup : list Z) : Prop :=
  match cargroup with
  | [] => True
  | hi :: rest =>
      (exists t, ctyp !! Z.to_nat (hi - 1) = Some t /\
         (limit t = Ok (hi - lo) \/
          exists t', ctyp !! Z.to_nat hi = Some t' /\ t' <> t)) /\
      groups_full ctyp limit hi rest
  end.

(** Adjacent groups of one coupler type differ by one vehicle at most. *)
Definition balanced (ctyp : list Z) (cargroup : list Z) : Prop :=
  forall j a b c t,
    (0 :: cargroup) !! j = Some a -> cargroup !! j = Some b ->
    cargroup !! S j = Some c ->
    ctyp !! Z.to_nat (b - 1) = Some t -> ctyp !! Z.to_nat (c - 1) = Some t ->
    -1 <= (c - b) - (b - a) <= 1.

(** The invariant of the equalising loop on the sizes: the groups
    before [i] keep the coupler type of the scanned group at their
    position, [i] is the start of a run, and adjacent groups before [i]
    that belong to one run differ by one vehicle at most. *)
Definition run_boundary (ctyp cargroup : list Z) (i : nat) : Prop :=
  i = 0%nat \/ (length cargroup <= i)%nat \/
  exists t t', group_type ctyp cargroup (i - 1) = Ok t /\
               group_type ctyp cargroup i = Ok t' /\ t <> t'.

Definition balanced_inv (ctyp cargroup : list Z) (i : nat) (eq : list Z)
  : Prop :=
  (forall j b, (j < i)%nat -> eq !! j = Some b ->
     exists t, group_type ctyp cargroup j = Ok t /\
               ctyp !! Z.to_nat (b - 1) = Some t) /\
  run_boundary ctyp cargroup i /\
  (forall j a b c, (S j < i)%nat ->
     (0 :: eq) !! j = Some a -> eq !! j = Some b -> eq !! S j = Some c ->
     group_type ctyp cargroup j = group_type ctyp cargroup (S j) ->
     -1 <= (c - b) - (b - a) <= 1).

(** * Properties *)

(** ** Comparisons on rationals *)

Lemma Qltb_lt x y : Qltb x y = true <-> (x < y)%Q.
Proof.
  unfold Qltb. rewrite negb_true_iff. split.
  - intros H. apply Qnot_le_lt. intros Hle.
    apply Qle_bool_iff in Hle. congruence.
  - intros H. destruct (Qle_bool y x) eqn:E; [|done].
    apply Qle_bool_iff in E. exfalso. apply (Qlt_not_le _ _ H E).
Qed.

Lemma Qltb_ge x y : Qltb x y = false <-> (y <= x)%Q.
Proof.
  unfold Qltb. rewrite negb_false_iff. apply Qle_bool_iff.
Qed.


(** ** The error monad *)

Lemma rbind_Ok {A B} (m : result A) (k : A -> result B) (b : B) :
  rbind m k = Ok b -> exists a, m = Ok a /\ k a = Ok b.
Proof. destruct m as [a|e]; simpl; [eauto | discriminate]. Qed.

Lemma rmapM_length {A B} (f : A -> result B) (l : list A) (r : list B) :
  rmapM f l = Ok r -> length r = length l.
Proof.
  revert r. induction l as [|a l IH]; simpl; intros r H.
  - by inversion H.
  - apply rbind_Ok in H as (b & _ & H). apply rbind_Ok in H as (bs & Hbs & H).
    inversion H; subst. simpl. f_equal. by apply IH.
Qed.

Lemma rmapM_lookup {A B} (f : A -> result B) (l : list A) (r : list B)
    (i : nat) (a : A) :
  rmapM f l = Ok r -> l !! i = Some a ->
  exists b, f a = Ok b /\ r !! i = Some b.
Proof.
  revert r i. induction l as [|a' l IH]; simpl; intros r i H Hi; [done|].
  apply rbind_Ok in H as (b & Hb & H). apply rbind_Ok in H as (bs & Hbs & H).
  inversion H; subst. destruct i as [|i]; simpl in *.
  - inversion Hi; subst. eauto.
  - eauto.
Qed.

(** Peel the first binding of a successful computation. *)
Ltac rinv H :=
  let a := fresh "v" in
  let E := fresh "E" in
  apply rbind_Ok in H as (a & E & H).

(** ** Rounding *)

Lemma inject_Z_minus (x y : Z) :
  inject_Z (x - y) = (inject_Z x - inject_Z y)%Q.
Proof.
  unfold Z.sub, Qminus. by rewrite inject_Z_plus, inject_Z_opp.
Qed.

Lemma Qfloor_sub_bounds (q : Q) :
  (0 <= q - inject_Z (Qfloor q))%Q /\ (q - inject_Z (Qfloor q) < 1)%Q.
Proof.
  pose proof (Qfloor_le q) as H1. pose proof (Qlt_floor q) as H2.
  rewrite inject_Z_plus in H2.
  change (inject_Z 1) with 1%Q in H2. split; lra.
Qed.

Lemma round_half_even_bounds (q : Q) :
  (q - (1 # 2) <= inject_Z (round_half_even q))%Q /\
  (inject_Z (round_half_even q) <= q + (1 # 2))%Q.
Proof.
  unfold round_half_even.
  destruct (Qfloor_sub_bounds q) as [H0 H1].
  set (f := Qfloor q) in *.
  destruct (Qcompare_spec (q - inject_Z f) (1 # 2)) as [E|E|E].
  - destruct (Z.even f); rewrite ?inject_Z_plus;
      change (inject_Z 1) with 1%Q; lra.
  - lra.
  - rewrite inject_Z_plus. change (inject_Z 1) with 1%Q. lra.
Qed.

Lemma round_half_even_ge_floor (q : Q) : Qfloor q <= round_half_even q.
Proof.
  unfold round_half_even.
  destruct (_ ?= _)%Q; try destruct (Z.even _); lia.
Qed.

Lemma round_half_even_inject (q : Q) (z : Z) :
  (q == inject_Z z)%Q -> round_half_even q = z.
Proof.
  intros E. unfold round_half_even.
  assert (Hf : Qfloor q = z) by (rewrite E; apply Qfloor_Z).
  rewrite Hf.
  destruct (Qcompare_spec (q - inject_Z z) (1 # 2)) as [H|H|H];
    [exfalso; lra | done | exfalso; lra].
Qed.

(** ** FastSimODE: the rope-force lookup *)

Lemma rope_index_le (T : list Q) (t : Q) (k : nat) :
  rope_index T t = Ok k -> (k <= length T)%nat.
Proof.
  unfold rope_index. intros H. rinv H. rinv H.
  destruct (Qzero _); [discriminate|]. inversion H. lia.
Qed.

(** Past the end of a uniform series the index is [len(T)], one more than
    the last row. *)
Lemma rope_index_overrun (T0 T1 : Q) (rest : list Q) (t : Q) :
  let T := T0 :: T1 :: rest in
  (0 < T1 - T0)%Q ->
  (T0 + inject_Z (Z.of_nat (length T)) * (T1 - T0) <= t)%Q ->
  rope_index T t = Ok (length T).
Proof.
  intros T Hdt Ht. subst T. unfold rope_index. simpl in *.
  destruct (Qzero (T1 - T0)) eqn:Ez.
  { apply Qeq_bool_iff in Ez. lra. }
  f_equal.
  set (n := S (S (length rest))) in *.
  assert (Hq : (inject_Z (Z.of_nat n) <= (t - T0) / (T1 - T0))%Q).
  { apply Qle_shift_div_l; lra. }
  apply Qfloor_resp_le in Hq. rewrite Qfloor_Z in Hq.
  pose proof (round_half_even_ge_floor ((t - T0) / (T1 - T0))) as Hr.
  generalize dependent (round_half_even ((t - T0) / (T1 - T0))).
  generalize dependent (Qfloor ((t - T0) / (T1 - T0))).
  intros. lia.
Qed.

Lemma FastSimODE_rope_overrun (T0 T1 : Q) (rest : list Q)
    (FROPE : list (list Q)) n b c M x2all Fmax2all Fmin2all Klocked Kawu
    (t : Q) (X : list Q) :
  let T := T0 :: T1 :: rest in
  (0 < T1 - T0)%Q -> length FROPE = length T ->
  (T0 + inject_Z (Z.of_nat (length T)) * (T1 - T0) <= t)%Q ->
  FastSimODE T FROPE n b c M x2all Fmax2all Fmin2all Klocked Kawu t X
  = Raise IndexError.
Proof.
  intros T Hdt Hlen Ht. unfold FastSimODE.
  pose proof (rope_index_overrun T0 T1 rest t Hdt Ht) as Hi.
  fold T in Hi. rewrite Hi. simpl rbind.
  unfold idx. rewrite (lookup_ge_None_2 FROPE); [done|].
  rewrite Hlen. done.
Qed.

(** C1 (code defect).  The index is limited to [len(T)], not to
    [len(T) - 1]: with two samples [T = [0, 1]], a two-row rope-force
    table and [t = 2], the computed row is 2 and the lookup raises
    [IndexError] instead of returning the last sample.  The same happens
    for every uniform series with one rope-force row per sample and
    every [t] at or beyond [T[0] + len(T) dt]. *)
Theorem rope_lookup_overrun_raises :
  rope_index [0; 1]%Q 2 = Ok 2%nat /\
  one_group [0; 1]%Q [[0]; [0]]%Q 2 [0; 1; 0]%Q = Raise IndexError /\
  (forall T0 T1 rest FROPE n b c M x2all Fmax2all Fmin2all Klocked Kawu t X,
     let T := T0 :: T1 :: rest in
     (0 < T1 - T0)%Q -> length FROPE = length T ->
     (T0 + inject_Z (Z.of_nat (length T)) * (T1 - T0) <= t)%Q ->
     FastSimODE T FROPE n b c M x2all Fmax2all Fmin2all Klocked Kawu t X
     = Raise IndexError).
Proof.
  split; [reflexivity|]. split; [reflexivity|].
  intros. by apply FastSimODE_rope_overrun.
Qed.

(** ** FastSimODE: the last group *)

Lemma FastSimODE_single_group T FROPE b c M x2all Fmax2all Fmin2all
    Klocked Kawu (t F1 DV DX : Q) (out : ode_out) :
  FastSimODE T FROPE 1 b c M x2all Fmax2all Fmin2all Klocked Kawu t
    [F1; DV; DX] = Ok out ->
  Xdot out = [F1; 0; 0]%Q.
Proof.
  unfold FastSimODE. intros H. rinv H. rinv H. rinv H. rinv H.
  destruct (Qzero _); [discriminate|].
  rinv H. rinv H. simpl in H. rinv H. inversion H; subst out. simpl.
  clear H. rename E5 into H. unfold write_last in H. simpl in H.
  rinv H. rinv H. rinv H. simpl in H. by inversion H.
Qed.

(** C2 (code defect).  For one group, state [F1 = 0, DV = 1, DX = 0],
    [Klocked = 3] and [Kawu = 7], the documented last-group law gives the
    derivative [3; 0; 1]; the code writes through the indices [2*i] and
    [3*i] and returns [0; 0; 0]: the displacement derivative is not [DV]
    and the force derivative is the state [F1] itself, as for every
    one-group call that returns.  For two groups with rope forces
    [0; 1], zero forces and displacements and the relative velocities
    [DV = [1; 2]], the derivative of the last
    velocity (index 3) is [DV[0] = 1] instead of 0, the derivative of the
    last displacement (index 5) is 0 instead of [DV[1] = 2], the
    derivative of the last force state (index 1) is
    [Klocked[1] DV[0] = 4] instead of [Klocked[1] DV[1] = 8], and the
    velocity derivative [a[1] - a[0] = -1] of the first group (index 2)
    is overwritten with 0. *)
Theorem last_group_derivative_misindexed :
  rmap Xdot (one_group [0; 1]%Q [[0]; [0]]%Q 0 [0; 1; 0]%Q)
  = Ok [0; 0; 0]%Q /\
  rmap (fun o => Qred <$> Xdot o)
    (two_groups [0; 1]%Q [[0; 1]; [0; 1]]%Q 0 [0; 0; 1; 2; 0; 0]%Q)
  = Ok [3; 4; 0; 1; 1; 0]%Q /\
  (forall T FROPE b c M x2all Fmax2all Fmin2all Klocked Kawu
          (t F1 DV DX : Q) (out : ode_out),
     FastSimODE T FROPE 1 b c M x2all Fmax2all Fmin2all Klocked Kawu t
       [F1; DV; DX] = Ok out ->
     Xdot out = [F1; 0; 0]%Q).
Proof.
  split; [reflexivity|]. split; [vm_compute; reflexivity|].
  intros. by eapply FastSimODE_single_group.
Qed.

(** ** FastSimODE: the envelope bracket and the saturation *)

Lemma saturate_inside (F1 lo hi : Q) :
  (lo <= F1)%Q -> (F1 <= hi)%Q -> saturate F1 lo hi = F1.
Proof.
  intros H1 H2. unfold saturate.
  destruct (Qltb F1 lo) eqn:E1; [apply Qltb_lt in E1; lra|].
  destruct (Qltb hi F1) eqn:E2; [apply Qltb_lt in E2; lra|]. done.
Qed.

Lemma saturate_bounds (F1 lo hi : Q) :
  (lo <= hi)%Q ->
  (lo <= saturate F1 lo hi)%Q /\ (saturate F1 lo hi <= hi)%Q.
Proof.
  intros H. unfold saturate.
  destruct (Qltb F1 lo) eqn:E1; [lra|]. apply Qltb_ge in E1.
  destruct (Qltb hi F1) eqn:E2; [lra|]. apply Qltb_ge in E2. lra.
Qed.

(** The two rows read are rows of a table with [m >= 2] rows, and the
    weight [frac] lies in [0, 1). *)
Lemma bracket_in_range (m : Z) (x0 dx DX : Q) :
  2 <= m ->
  let '(idx0, idx1, frac) := bracket m x0 dx DX in
  0 <= idx0 /\ idx1 = idx0 + 1 /\ idx1 <= m - 1 /\
  (0 <= frac)%Q /\ (frac < 1)%Q.
Proof.
  intros Hm. unfold bracket.
  destruct (Qfloor_sub_bounds ((DX - x0) / dx)) as [H0 H1].
  destruct (Z.ltb_spec (Qfloor ((DX - x0) / dx)) 0);
    [repeat split; (lia || done)|].
  destruct (Z.gtb_spec (Qfloor ((DX - x0) / dx)) (m - 2));
    repeat split; (lia || done).
Qed.

(** Inside the table the bracket is the grid cell of [DX]: the value built
    from it is the linear interpolant. *)
Lemma bracket_inside (m : Z) (x0 dx DX : Q) :
  ~ (dx == 0)%Q ->
  0 <= Qfloor ((DX - x0) / dx) <= m - 2 ->
  let '(idx0, idx1, frac) := bracket m x0 dx DX in
  idx0 = Qfloor ((DX - x0) / dx) /\
  (x0 + (inject_Z idx0 + frac) * dx == DX)%Q.
Proof.
  intros Hdx Hf. unfold bracket.
  destruct (Z.ltb_spec (Qfloor ((DX - x0) / dx)) 0); [lia|].
  destruct (Z.gtb_spec (Qfloor ((DX - x0) / dx)) (m - 2)); [lia|].
  split; [done|]. field. done.
Qed.

(** At the last grid point the floor is [m - 1], the bracket is moved to
    the last cell, and the weight stays 0: the value read is the one of
    the grid point before the last. *)
Lemma bracket_at_last_point (m : Z) (x0 dx : Q) :
  2 <= m -> ~ (dx == 0)%Q ->
  let '(idx0, idx1, frac) := bracket m x0 dx (x0 + inject_Z (m - 1) * dx) in
  idx0 = m - 2 /\ idx1 = m - 1 /\ (frac == 0)%Q.
Proof.
  intros Hm Hdx. unfold bracket.
  assert (E : ((x0 + inject_Z (m - 1) * dx - x0) / dx == inject_Z (m - 1))%Q)
    by (field; done).
  assert (Ef : Qfloor ((x0 + inject_Z (m - 1) * dx - x0) / dx) = m - 1)
    by (rewrite E; apply Qfloor_Z).
  rewrite Ef.
  destruct (Z.ltb_spec (m - 1) 0); [lia|].
  destruct (Z.gtb_spec (m - 1) (m - 2)); [|lia].
  repeat split. rewrite E. ring.
Qed.

(** The realised force lies within the envelope whenever the envelope is
    not crossed, and is the force state itself when that lies within. *)
Theorem saturation_law (F1 lo hi : Q) :
  (lo <= hi)%Q ->
  (lo <= saturate F1 lo hi)%Q /\ (saturate F1 lo hi <= hi)%Q /\
  ((lo <= F1)%Q -> (F1 <= hi)%Q -> saturate F1 lo hi = F1).
Proof.
  intros H. destruct (saturate_bounds F1 lo hi H) as [H1 H2].
  split; [done|]. split; [done|]. apply saturate_inside.
Qed.

Lemma saturation_law_witness :
  (0 <= saturate 15 0 10)%Q /\ (saturate 15 0 10 <= 10)%Q /\
  ((0 <= 15)%Q -> (15 <= 10)%Q -> saturate 15 0 10 = 15%Q).
Proof. apply (saturation_law 15 0 10). discriminate. Defined.

Lemma bracket_in_range_witness :
  let '(idx0, idx1, frac) := bracket 3 0 1 (7 # 2) in
  0 <= idx0 /\ idx1 = idx0 + 1 /\ idx1 <= 3 - 1 /\
  (0 <= frac)%Q /\ (frac < 1)%Q.
Proof. apply (bracket_in_range 3 0 1 (7 # 2)). lia. Defined.

Lemma bracket_inside_witness :
  let '(idx0, idx1, frac) := bracket 3 0 1 (3 # 2) in
  idx0 = Qfloor (((3 # 2) - 0) / 1) /\
  (0 + (inject_Z idx0 + frac) * 1 == 3 # 2)%Q.
Proof.
  apply (bracket_inside 3 0 1 (3 # 2)); [discriminate|].
  vm_compute. split; discriminate.
Defined.

(** C5 (code defect).  On the grid [0; 1; 2] with upper envelope
    [0; 10; 20] and lower envelope [-10; 0; 10], at the displacement
    [DX = 2] (the last grid point) the code returns the bounds [0] and
    [10] of the grid point 1 where linear interpolation gives [10] and
    [20]; at [DX = 7/2], beyond the table, it returns [5] and [15] where
    the slope of the boundary segment gives [25] and [35].  At the last
    grid point of every uniform table the rows read are the last two
    with weight 0 on the last one. *)
Theorem envelope_bracket_weight_before_clamp :
  let ode := one_group [0; 1]%Q [[0]; [0]]%Q 0 in
  rmap (fun o => (Qred <$> Fmin_out o, Qred <$> Fmax_out o)) (ode [5; 1; 2]%Q)
  = Ok ([0]%Q, [10]%Q) /\
  rmap (fun o => (Qred <$> Fmin_out o, Qred <$> Fmax_out o))
    (ode [5; 1; 7 # 2]%Q)
  = Ok ([5]%Q, [15]%Q) /\
  (forall (m : Z) (x0 dx : Q), 2 <= m -> ~ (dx == 0)%Q ->
     let '(idx0, idx1, frac) :=
       bracket m x0 dx (x0 + inject_Z (m - 1) * dx) in
     idx0 = m - 2 /\ idx1 = m - 1 /\ (frac == 0)%Q).
Proof.
  split; [reflexivity|]. split; [reflexivity|].
  apply bracket_at_last_point.
Qed.

(** ** ode23simple: the attempted step *)

Lemma clamp_step_ge (hmax hmin h : Q) : (hmin <= clamp_step hmax hmin h)%Q.
Proof.
  unfold clamp_step.
  destruct (Qltb _ hmin) eqn:E; [lra|]. by apply Qltb_ge in E.
Qed.

Lemma clamp_step_le (hmax hmin h : Q) :
  (hmin <= hmax)%Q -> (clamp_step hmax hmin h <= hmax)%Q.
Proof.
  intros Hm. unfold clamp_step.
  destruct (Qltb hmax h) eqn:E1.
  - destruct (Qltb hmax hmin) eqn:E2; [done|lra].
  - apply Qltb_ge in E1. destruct (Qltb h hmin) eqn:E2; [done|lra].
Qed.

Lemma choose_step_spec (hmax t tn h : Q) :
  let hmin := (16 * float_eps * Qabs t)%Q in
  let c := clamp_step hmax hmin h in
  ((tn - t <= (11 # 10) * c)%Q ->
     choose_step hmax t tn h = ((tn - t)%Q, true)) /\
  (((11 # 10) * c < tn - t)%Q -> choose_step hmax t tn h = (c, false)).
Proof.
  intros hmin c. unfold choose_step. fold hmin. fold c.
  destruct (Qle_bool (tn - t) ((11 # 10) * c)) eqn:E; split; intros H;
    try done.
  - apply Qle_bool_iff in E. lra.
  - apply Qle_bool_iff in H. congruence.
Qed.

Lemma ode_attempt_step f hmax (s : ode_state) (a : attempt) :
  ode_attempt f hmax s = Ok a ->
  (att_h a, attout a) = choose_step hmax (ode_t s) (tnext s) (ode_h s) /\
  att_hmin a = (16 * float_eps * Qabs (ode_t s))%Q /\
  tnew a = (ode_t s + att_h a)%Q.
Proof.
  unfold ode_attempt. intros H.
  destruct (choose_step _ _ _ _) as [h att].
  do 13 rinv H. injection H as <-. simpl. auto.
Qed.

(** C7 (amended).  In every pass of the loop, [h] is first limited to
    [hmax] from above and then to [hmin = 16 eps |t|] from below, so the
    limited value [c] satisfies [hmin <= c], and [c <= hmax] when
    [hmin <= hmax].  When [1.1 c >= tnext - t] the step attempted is
    [tnext - t] exactly (it lands on the output time, and is at most
    [1.1 c]); otherwise the step attempted is [c]. *)
Theorem attempted_step_limits f hmax (s : ode_state) (a : attempt) :
  ode_attempt f hmax s = Ok a ->
  let t := ode_t s in
  let hmin := (16 * float_eps * Qabs t)%Q in
  let c := clamp_step hmax hmin (ode_h s) in
  att_hmin a = hmin /\
  (hmin <= c)%Q /\
  ((hmin <= hmax)%Q -> (c <= hmax)%Q) /\
  ((tnext s - t <= (11 # 10) * c)%Q ->
     attout a = true /\ att_h a = (tnext s - t)%Q) /\
  (((11 # 10) * c < tnext s - t)%Q ->
     attout a = false /\ att_h a = c).
Proof.
  intros H t hmin c.
  apply ode_attempt_step in H as (Hc & Hm & _).
  destruct (choose_step_spec hmax t (tnext s) (ode_h s)) as [H1 H2].
  fold t in Hc. fold hmin c in H1, H2.
  split; [done|]. split; [apply clamp_step_ge|].
  split; [apply clamp_step_le|].
  split; intros Hlt.
  - rewrite (H1 Hlt) in Hc. by inversion Hc.
  - rewrite (H2 Hlt) in Hc. by inversion Hc.
Qed.

(** A pass at [t = 0] with [hmax = 1], proposed step 5 and next output
    time 3: the step attempted is the limited one. *)
Lemma attempted_step_limits_witness :
  let f := one_group_slope [0; 10]%Q [[0]; [0]]%Q in
  let s := mk_ode_state 0 [0; 0; 0]%Q 5 [0; 0; 0]%Q 1 3
             [0; 3; 10]%Q [[0; 0; 0]; [0; 0; 0]; [0; 0; 0]]%Q 0 5 5 0 0 in
  exists a, ode_attempt f 1 s = Ok a /\
    attout a = false /\ att_h a = clamp_step 1 (16 * float_eps * Qabs 0) 5.
Proof.
  intros f s.
  destruct (ode_attempt f 1 s) as [a|e] eqn:E; [|vm_compute in E; discriminate].
  exists a. split; [done|].
  apply (attempted_step_limits f 1 s a E). reflexivity.
Defined.

(** For the output times [0; 1.1; 10] ([hmax = 1]) and a train at rest,
    the first step attempted is 1.1: it lands on the output time and is
    larger than [hmax]. *)
Lemma attempted_step_above_hmax :
  let f := one_group_slope [0; 10]%Q [[0]; [0]]%Q in
  let hmax := ((1 # 10) * (10 - 0))%Q in
  rmap (fun a => (Qred (att_h a), attout a))
    (do s <- ode_init f pow13_approx [0; 11 # 10; 10]%Q [0; 0; 0]%Q;
     ode_attempt f hmax s)
  = Ok ((11 # 10)%Q, true) /\
  (hmax < 11 # 10)%Q.
Proof. split; [vm_compute|]; reflexivity. Qed.

(** ** ode23simple: accepting, rejecting and the next step size *)




(** ** ode23simple: the outputs kept by the loop *)









(** ** Steady-state displacement *)

Lemma fold_max_ge (l : list Q) (m0 : Q) :
  (m0 <= fold_left (fun m y => Qmax m (Qabs y)) l m0)%Q /\
  forall y, y ∈ l -> (Qabs y <= fold_left (fun m y => Qmax m (Qabs y)) l m0)%Q.
Proof.
  revert m0. induction l as [|a l IH]; intros m0; simpl.
  - split; [lra|]. intros y Hy. by apply elem_of_nil in Hy.
  - destruct (IH (Qmax m0 (Qabs a))) as [H1 H2].
    pose proof (Q.le_max_l m0 (Qabs a)). pose proof (Q.le_max_r m0 (Qabs a)).
    split; [lra|]. intros y Hy. apply elem_of_cons in Hy as [->|Hy].
    + lra.
    + by apply H2.
Qed.

Lemma norm_inf_ge (l : list Q) (m : Q) :
  norm_inf l = Ok m -> forall y, y ∈ l -> (Qabs y <= m)%Q.
Proof.
  destruct l as [|a l]; simpl; [discriminate|].
  intros H y Hy. injection H as <-.
  destruct (fold_max_ge l (Qabs a)) as [H1 H2].
  apply elem_of_cons in Hy as [->|Hy]; [done|by apply H2].
Qed.

(** The slope added to the table is never negative, and positive as soon
    as the upper envelope has a non-zero entry. *)
Lemma eps_slope_pos (col : list Q) (e : Q) :
  eps_slope col = Ok e ->
  (0 <= e)%Q /\ (forall y, y ∈ col -> ~ (y == 0)%Q -> (0 < e)%Q).
Proof.
  unfold eps_slope. intros H. rinv H. injection H as <-.
  assert (He : (0 < float_eps)%Q) by reflexivity.
  destruct col as [|a col]; [discriminate|].
  pose proof (norm_inf_ge _ _ E a ltac:(left)) as Ha.
  pose proof (Qabs_nonneg a) as Ha0.
  split.
  - apply Qmult_le_0_compat; [|lra]. apply Qmult_le_0_compat; lra.
  - intros y Hy Hy0. pose proof (norm_inf_ge _ _ E y Hy) as Hyv.
    assert (0 < Qabs y)%Q.
    { destruct (Qlt_le_dec 0 (Qabs y)) as [|Hle]; [done|]. exfalso.
      apply Hy0. apply Qabs_Qle_condition in Hle. lra. }
    apply Qmult_lt_0_compat; [|lra]. apply Qmult_lt_0_compat; lra.
Qed.

Lemma perturb_lookup (col : list Q) (e : Q) (k : nat) :
  perturb col e !! k
  = (fun v => v + inject_Z (Z.of_nat k + 1) * e)%Q <$> col !! k.
Proof. unfold perturb. by rewrite list_lookup_imap. Qed.

(** With a positive slope a non-decreasing table becomes strictly
    increasing, which is what lets [np.interp] invert it. *)
Lemma perturb_increasing (col : list Q) (e : Q) (k : nat) (u v : Q) :
  (0 < e)%Q -> col !! k = Some u -> col !! S k = Some v -> (u <= v)%Q ->
  exists u' v', perturb col e !! k = Some u' /\
    perturb col e !! S k = Some v' /\ (u' < v')%Q.
Proof.
  intros He Hu Hv Huv. rewrite !perturb_lookup, Hu, Hv. simpl.
  do 2 eexists. split; [done|]. split; [done|].
  rewrite Nat2Z.inj_succ. unfold Z.succ. rewrite !inject_Z_plus.
  change (inject_Z 1) with 1%Q. nra.
Qed.

Lemma xlt0_trend (f0 f1 : Q) :
  xlt0 (xsign (xsub (Fin f1) (Fin f0))) = true <-> (f1 - f0 < 0)%Q.
Proof.
  simpl. destruct (Qcompare_spec (f1 - f0) 0) as [E|E|E]; split; intros H;
    try reflexivity; try discriminate; lra.
Qed.

(** The envelope inverted for coupler [i], by the first difference of
    its rope force. *)
Lemma ss_one_branch x2all Fmin2all Fmax2all (r0 r1 : list xfloat) rest
    (i : nat) (f0 f1 : Q) (cmax : list Q) (e : Q) :
  r0 !! i = Some (Fin f0) -> r1 !! i = Some (Fin f1) ->
  column Fmax2all i = Ok cmax -> eps_slope cmax = Ok e ->
  ((0 <= f1 - f0)%Q ->
     ss_one x2all Fmin2all Fmax2all (r0 :: r1 :: rest) i
     = np_interp (Fin f0) (perturb cmax e) x2all) /\
  ((f1 - f0 < 0)%Q -> forall cmin, column Fmin2all i = Ok cmin ->
     ss_one x2all Fmin2all Fmax2all (r0 :: r1 :: rest) i
     = np_interp (Fin f0) (perturb cmin e) x2all).
Proof.
  intros H0 H1 Hc He. unfold ss_one, rope_trend, idx. simpl.
  rewrite H0, H1, Hc. simpl. rewrite He. simpl.
  destruct (Qcompare_spec (f1 - f0) 0) as [E|E|E];
    (split; [intros Hd | intros Hd cmin Hm]);
    try (exfalso; lra);
    change (Qltb 0 0) with false; change (Qltb 1 0) with false;
    change (Qltb (-1) 0) with true; cbv iota; try done.
  by rewrite Hm.
Qed.

(** C10.  For finite first two samples [f0], [f1] of the rope force of
    coupler [i]: a first difference [f1 - f0 >= 0] (zero included) inverts
    the upper envelope [Fmax], only [f1 - f0 < 0] inverts the lower
    envelope [Fmin]; the table inverted is the envelope plus
    [(k + 1) e] at row [k], with [e = 2 eps max|Fmax[:, i]| >= 0], a
    perturbation that is strictly increasing in [k] when [e > 0] (that
    is, when the upper envelope has a non-zero entry). *)
Theorem steady_state_tie_break x2all Fmin2all Fmax2all
    (r0 r1 : list xfloat) rest (i : nat) (f0 f1 : Q) (cmax : list Q) (e : Q) :
  r0 !! i = Some (Fin f0) -> r1 !! i = Some (Fin f1) ->
  column Fmax2all i = Ok cmax -> eps_slope cmax = Ok e ->
  ((0 <= f1 - f0)%Q ->
     ss_one x2all Fmin2all Fmax2all (r0 :: r1 :: rest) i
     = np_interp (Fin f0) (perturb cmax e) x2all) /\
  ((f1 - f0 < 0)%Q -> forall cmin, column Fmin2all i = Ok cmin ->
     ss_one x2all Fmin2all Fmax2all (r0 :: r1 :: rest) i
     = np_interp (Fin f0) (perturb cmin e) x2all) /\
  (0 <= e)%Q /\
  ((exists y, y ∈ cmax /\ ~ (y == 0)%Q) -> (0 < e)%Q) /\
  (forall col k v, col !! k = Some v ->
     perturb col e !! k = Some (v + inject_Z (Z.of_nat k + 1) * e)%Q) /\
  ((0 < e)%Q -> forall k k' : nat, (k < k')%nat ->
     (inject_Z (Z.of_nat k + 1) * e < inject_Z (Z.of_nat k' + 1) * e)%Q).
Proof.
  intros H0 H1 Hc He.
  destruct (ss_one_branch x2all Fmin2all Fmax2all r0 r1 rest i f0 f1 cmax e
              H0 H1 Hc He) as [Hup Hlo].
  destruct (eps_slope_pos cmax e He) as [He0 Hpos].
  split; [done|]. split; [done|]. split; [done|].
  split; [intros (y & Hy & Hy0); eauto|].
  split.
  - intros col k v Hv. by rewrite perturb_lookup, Hv.
  - intros Hep k k' Hk. apply Qmult_lt_compat_r; [done|].
    rewrite <- Zlt_Qlt. lia.
Qed.

(** A constant rope force [5] on the upper envelope [0; 10; 20] over the
    grid [0; 1; 2]. *)
Lemma steady_state_tie_break_witness :
  exists e, eps_slope [0; 10; 20]%Q = Ok e /\
    ss_one [0; 1; 2]%Q [[-10]; [0]; [10]]%Q [[0]; [10]; [20]]%Q
      [[Fin 5]; [Fin 5]] 0
    = np_interp (Fin 5) (perturb [0; 10; 20]%Q e) [0; 1; 2]%Q.
Proof.
  destruct (eps_slope [0; 10; 20]%Q) as [e|x] eqn:He;
    [|vm_compute in He; discriminate].
  exists e. split; [done|].
  destruct (steady_state_tie_break [0; 1; 2]%Q [[-10]; [0]; [10]]%Q
              [[0]; [10]; [20]]%Q [Fin 5] [Fin 5] [] 0%nat 5 5
              [0; 10; 20]%Q e eq_refl eq_refl eq_refl He) as [H _].
  apply H. lra.
Defined.

(** ** The steady-state initial state *)

Lemma ssCouplerDisplacement_lookup x2all Fmin2all Fmax2all Frope
    (DX0 : list xfloat) :
  ssCouplerDisplacement x2all Fmin2all Fmax2all Frope = Ok DX0 ->
  length DX0 = ncols Fmax2all /\
  forall i, (i < ncols Fmax2all)%nat ->
    exists d, ss_one x2all Fmin2all Fmax2all Frope i = Ok d /\
              DX0 !! i = Some d.
Proof.
  unfold ssCouplerDisplacement. intros H. split.
  - apply rmapM_length in H. by rewrite length_seq in H.
  - intros i Hi.
    apply (rmapM_lookup _ _ _ i i H). by apply lookup_seq_lt.
Qed.

Lemma nan_to_zero_not_nan (v : xfloat) : isnan (nan_to_zero v) = false.
Proof. by destruct v. Qed.

Lemma nan_to_zero_id (v : xfloat) : isnan v = false -> nan_to_zero v = v.
Proof. by destruct v. Qed.

(** C4 (amended).  With [X0 = 'steady-state'] (in any letter case) the
    initial state is the first rope-force row, then [F10 * 0], then the
    steady-state displacements, with every NaN component replaced by
    zero and every other component kept (an infinite component stays
    infinite).  For finite rope forces the force block is the first row
    and the velocity block is zero.  The displacement of coupler [i]
    inverts the upper envelope when its rope force does not decrease over
    the first two samples and the lower envelope when it decreases. *)
Theorem steady_state_initial_state (s : string) (n : nat) x2all
    Fmin2all Fmax2all (Frope : list (list xfloat)) (F10 DX0 : list xfloat) :
  lower s = "steady-state"%string ->
  Frope !! 0%nat = Some F10 ->
  ssCouplerDisplacement x2all Fmin2all Fmax2all Frope = Ok DX0 ->
  exists X0,
    initial_state n x2all Fmin2all Fmax2all Frope (X0_str s) = Ok X0 /\
    X0 = nan_to_zero <$> (F10 ++ (xmul0 <$> F10) ++ DX0) /\
    (forall j v, X0 !! j = Some v -> isnan v = false) /\
    (forall j v, F10 !! j = Some v ->
       X0 !! j = Some (nan_to_zero v) /\
       (isnan v = false -> X0 !! j = Some v) /\
       exists z, X0 !! (length F10 + j)%nat = Some (Fin z) /\ (z == 0)%Q) /\
    (forall i, (i < ncols Fmax2all)%nat ->
       exists d, ss_one x2all Fmin2all Fmax2all Frope i = Ok d /\
         X0 !! (2 * length F10 + i)%nat = Some (nan_to_zero d)) /\
    (forall i f0 f1 r1 cmax e,
       F10 !! i = Some (Fin f0) -> Frope !! 1%nat = Some r1 ->
       r1 !! i = Some (Fin f1) ->
       column Fmax2all i = Ok cmax -> eps_slope cmax = Ok e ->
       ((f0 <= f1)%Q ->
          ss_one x2all Fmin2all Fmax2all Frope i
          = np_interp (Fin f0) (perturb cmax e) x2all) /\
       ((f1 < f0)%Q -> forall cmin, column Fmin2all i = Ok cmin ->
          ss_one x2all Fmin2all Fmax2all Frope i
          = np_interp (Fin f0) (perturb cmin e) x2all)).
Proof.
  intros Hs HF HD. eexists. split.
  { unfold initial_state. rewrite Hs. simpl. unfold idx. rewrite HF. simpl.
    rewrite HD. simpl. reflexivity. }
  split; [done|].
  destruct (ssCouplerDisplacement_lookup _ _ _ _ _ HD) as [Hlen Hss].
  split; [|split; [|split]].
  - intros j v Hj. apply list_lookup_fmap_Some in Hj as (w & -> & _).
    apply nan_to_zero_not_nan.
  - intros j v Hj. pose proof (lookup_lt_Some _ _ _ Hj) as Hlt.
    assert (H1 : (nan_to_zero <$> F10 ++ (xmul0 <$> F10) ++ DX0) !! j
                 = Some (nan_to_zero v)).
    { rewrite list_lookup_fmap, lookup_app_l by done. by rewrite Hj. }
    split; [done|]. split.
    + intros Hv. by rewrite H1, nan_to_zero_id.
    + rewrite list_lookup_fmap, lookup_app_r by lia.
      replace (length F10 + j - length F10)%nat with j by lia.
      rewrite lookup_app_l by (rewrite length_fmap; lia).
      rewrite list_lookup_fmap, Hj. simpl.
      destruct v as [q| | |]; simpl; eexists; (split; [reflexivity|]);
        try reflexivity. ring.
  - intros i Hi. destruct (Hss i Hi) as (d & Hd & Hl). exists d.
    split; [done|].
    rewrite list_lookup_fmap, lookup_app_r by lia.
    rewrite lookup_app_r by (rewrite length_fmap; lia).
    rewrite length_fmap.
    replace (2 * length F10 + i - length F10 - length F10)%nat with i by lia.
    by rewrite Hl.
  - intros i f0 f1 r1 cmax e H0 Hr1 H1 Hc He.
    destruct Frope as [|r0 [|r1' rest]]; try discriminate.
    simpl in HF, Hr1. injection HF as ->. injection Hr1 as ->.
    destruct (ss_one_branch x2all Fmin2all Fmax2all F10 r1 rest i f0 f1
                cmax e H0 H1 Hc He) as [Hup Hlo].
    split.
    + intros Hle. apply Hup. lra.
    + intros Hlt. apply Hlo. lra.
Qed.

Lemma steady_state_initial_state_witness :
  exists X0,
    initial_state 1 [0; 1; 2]%Q [[-10]; [0]; [10]]%Q [[0]; [10]; [20]]%Q
      [[Fin 5]; [Fin 7]] (X0_str "Steady-State") = Ok X0 /\
    X0 !! 0%nat = Some (Fin 5) /\
    forall j v, X0 !! j = Some v -> isnan v = false.
Proof.
  destruct (ssCouplerDisplacement [0; 1; 2]%Q [[-10]; [0]; [10]]%Q
              [[0]; [10]; [20]]%Q [[Fin 5]; [Fin 7]]) as [DX0|e] eqn:E;
    [|vm_compute in E; discriminate].
  destruct (steady_state_initial_state "Steady-State" 1 [0; 1; 2]%Q
              [[-10]; [0]; [10]]%Q [[0]; [10]; [20]]%Q [[Fin 5]; [Fin 7]]
              [Fin 5] DX0 eq_refl eq_refl E)
    as (X0 & H & _ & Hn & Hf & _).
  exists X0. split; [done|]. split; [|done].
  destruct (Hf 0%nat (Fin 5) eq_refl) as (_ & H1 & _). by apply H1.
Defined.

(** An infinite first rope-force sample: the force component of the
    initial state stays infinite; only the NaN of [inf * 0] in the
    velocity block is replaced by zero. *)
Lemma infinite_rope_force_kept :
  initial_state 1 [0; 1; 2]%Q [[-10]; [0]; [10]]%Q [[0]; [10]; [20]]%Q
    [[PInf]; [Fin 0]] (X0_str "steady-state")
  = Ok [PInf; Fin 0; Fin 2] /\
  isfinite PInf = false /\ PInf <> Fin 0.
Proof. split; [vm_compute; reflexivity|]. split; [reflexivity|discriminate]. Qed.

(** ** Configuration errors *)

Lemma size_two_distinct (X : gset string) (a b : string) :
  a ∈ X -> b ∈ X -> a ≠ b -> (1 < size X)%nat.
Proof.
  intros Ha Hb Hab.
  assert (Hsub : ({[a]} ∪ {[b]} : gset string) ⊆ X).
  { intros x Hx. apply elem_of_union in Hx as [Hx|Hx];
      apply elem_of_singleton in Hx; by subst. }
  apply subseteq_size in Hsub.
  rewrite size_union in Hsub
    by (by apply disjoint_singleton_l, not_elem_of_singleton).
  rewrite !size_singleton in Hsub. lia.
Qed.

Lemma size_all_equal (l : list string) (u : string) :
  (forall v, v ∈ l -> v = u) -> (size (list_to_set l : gset string) <= 1)%nat.
Proof.
  intros H.
  assert (Hsub : (list_to_set l : gset string) ⊆ {[u]}).
  { intros v Hv. apply elem_of_list_to_set in Hv. apply H in Hv.
    by apply elem_of_singleton. }
  apply subseteq_size in Hsub. by rewrite size_singleton in Hsub.
Qed.

Lemma check_units_force (spec : list coupler_spec) (a b : coupler_spec) :
  a ∈ spec -> b ∈ spec -> Funits a ≠ Funits b ->
  check_units spec = Raise (ValueError "Force units not common").
Proof.
  intros Ha Hb Hab. unfold check_units.
  destruct (decide _) as [|Hn]; [done|]. exfalso. apply Hn.
  apply (size_two_distinct _ (Funits a) (Funits b)); [| |done];
    apply elem_of_list_to_set, list_elem_of_fmap; eauto.
Qed.

Lemma check_units_displacement (spec : list coupler_spec)
    (a b : coupler_spec) :
  a ∈ spec -> b ∈ spec -> Xunits a ≠ Xunits b ->
  exists msg, check_units spec = Raise (ValueError msg).
Proof.
  intros Ha Hb Hab. unfold check_units.
  destruct (decide _); [eauto|].
  destruct (decide _) as [|Hn]; [eauto|]. exfalso. apply Hn.
  apply (size_two_distinct _ (Xunits a) (Xunits b)); [| |done];
    apply elem_of_list_to_set, list_elem_of_fmap; eauto.
Qed.

Lemma type_spec_stroke (preload stroke : Q) :
  ~ (preload == 0)%Q ->
  (stroke + eocc_dx1 stroke <= eocc_x1 preload)%Q ->
  type_spec preload stroke = Raise (AssertionError "stroke is too small").
Proof.
  intros Hp Hs. unfold type_spec, Qzero.
  destruct (Qeq_bool preload 0) eqn:E; [by apply Qeq_bool_iff in E|].
  unfold eocc_spec. apply Qltb_ge in Hs. by rewrite Hs.
Qed.

Lemma type_spec_raises (preload stroke : Q) (e : exn) :
  type_spec preload stroke = Raise e ->
  e = AssertionError "stroke is too small".
Proof.
  unfold type_spec, eocc_spec. destruct (Qzero _); [discriminate|].
  destruct (Qltb _ _); [discriminate|]. by intros [= <-].
Qed.

(** A loop over the items raises [e] as soon as one item does and no
    item raises anything else. *)
Lemma rmapM_raises {A B} (f : A -> result B) (l : list A) (e : exn) (a : A) :
  a ∈ l -> f a = Raise e ->
  (forall a' e', a' ∈ l -> f a' = Raise e' -> e' = e) ->
  rmapM f l = Raise e.
Proof.
  induction l as [|a0 l IH]; intros Ha Hf Hall.
  - by apply elem_of_nil in Ha.
  - simpl. destruct (f a0) as [b|e0] eqn:E0; simpl.
    + apply elem_of_cons in Ha as [->|Ha]; [congruence|].
      rewrite IH; [done|done|done|].
      intros a' e' Ha'. apply Hall. by right.
    + f_equal. apply (Hall a0); [left|done].
Qed.

Lemma defineCouplers_stroke (numTypesInGroup preloads strokes : list (list Q))
    (p0 s0 : list Q) (i : nat) (preload stroke : Q) :
  shape preloads = shape strokes ->
  ncols preloads = ncols numTypesInGroup ->
  preloads !! 0%nat = Some p0 -> strokes !! 0%nat = Some s0 ->
  p0 !! i = Some preload -> s0 !! i = Some stroke ->
  ~ (preload == 0)%Q ->
  (stroke + eocc_dx1 stroke <= eocc_x1 preload)%Q ->
  defineCouplers numTypesInGroup preloads strokes
  = Raise (AssertionError "stroke is too small").
Proof.
  intros Hsh Hnc Hp Hs Hpi Hsi Hp0 Hst. unfold defineCouplers.
  rewrite !bool_decide_eq_true_2 by done. simpl.
  assert (Hnp : ncols preloads = length p0).
  { destruct preloads; [done|]. by injection Hp as ->. }
  assert (Hns : ncols strokes = length s0).
  { destruct strokes; [done|]. by injection Hs as ->. }
  assert (Hlen : length s0 = length p0).
  { injection Hsh as _ H. congruence. }
  assert (Htab : forall k, tab preloads 0 k = idx p0 k /\
                           tab strokes 0 k = idx s0 k).
  { intros k. unfold tab, py_index.
    destruct preloads as [|r pr]; [done|]. destruct strokes as [|r' sr]; [done|].
    injection Hp as ->. injection Hs as ->.
    rewrite !decide_True by (simpl; lia). done. }
  rewrite (rmapM_raises _ _ (AssertionError "stroke is too small") i); try done.
  - apply elem_of_seq. apply lookup_lt_Some in Hpi. lia.
  - destruct (Htab i) as [-> ->]. unfold idx. rewrite Hpi, Hsi. simpl.
    by apply type_spec_stroke.
  - intros k e' Hk Hr. destruct (Htab k) as [E1 E2]. rewrite E1, E2 in Hr.
    apply elem_of_seq in Hk. unfold idx in Hr.
    destruct (p0 !! k) eqn:Ek; [|apply lookup_ge_None in Ek; lia].
    destruct (s0 !! k) eqn:Ek'; [|apply lookup_ge_None in Ek'; lia].
    simpl in Hr. by apply type_spec_raises in Hr.
Qed.

Lemma check_dcar_spec (dcar : dcar_arg) :
  (recognized_dcar dcar -> check_dcar dcar = Ok tt) /\
  (~ recognized_dcar dcar -> exists msg, check_dcar dcar = Raise (ValueError msg)).
Proof.
  destruct dcar as [|v|d|]; simpl.
  - split; [tauto | intros _; eauto].
  - split; [done | intros H; exfalso; by apply H].
  - unfold has_key.
    destruct (bool_decide (is_Some (d !! "eocc"))) eqn:E1;
      destruct (bool_decide (is_Some (d !! "norm"))) eqn:E2;
      destruct (bool_decide (is_Some (d !! "eocc100"))) eqn:E3;
      destruct (bool_decide (is_Some (d !! "eocc050"))) eqn:E4;
      simpl;
      repeat match goal with
        | H : bool_decide _ = true |- _ => apply bool_decide_eq_true in H
        | H : bool_decide _ = false |- _ => apply bool_decide_eq_false in H
        end;
      (split;
       [ intros Hr; first [reflexivity | exfalso; tauto]
       | intros Hn; first [by eexists | exfalso; apply Hn; tauto] ]).
  - split; [tauto | intros _; eauto].
Qed.

Lemma defineCarGroups_unrecognized (dcar : dcar_arg) (cti : list Z)
    (varargin : list string) :
  ~ recognized_dcar (default_dcar dcar) ->
  exists msg, defineCarGroups dcar cti varargin = Some (Raise (ValueError msg)).
Proof.
  intros H. unfold defineCarGroups.
  destruct (check_dcar_spec (default_dcar dcar)) as [_ Hr].
  destruct (Hr H) as [msg ->]. eauto.
Qed.

(** C9.  [check_units], the units check of [defineCouplers], raises a
    [ValueError] when two coupler types differ in force or displacement
    units; [defineCouplers] raises when an EOCC type (non-zero preload)
    has [stroke + dx1 <= x1]; [defineCarGroups] raises a [ValueError]
    when the grouping limit (after the default for [None]) is neither a
    number nor a dict with the fields [{eocc, norm}] or
    [{eocc100, eocc050, norm}]; and in [runFastSimM] an error of either
    function is the result of the run whatever the simulation would do:
    the call of [FastSimM] is never reached. *)
Theorem configuration_errors_before_integration :
  (forall spec (a b : coupler_spec), a ∈ spec -> b ∈ spec ->
     Funits a ≠ Funits b \/ Xunits a ≠ Xunits b ->
     exists msg, check_units spec = Raise (ValueError msg)) /\
  (forall numTypesInGroup preloads strokes p0 s0 i (preload stroke : Q),
     shape preloads = shape strokes ->
     ncols preloads = ncols numTypesInGroup ->
     preloads !! 0%nat = Some p0 -> strokes !! 0%nat = Some s0 ->
     p0 !! i = Some preload -> s0 !! i = Some stroke ->
     ~ (preload == 0)%Q ->
     (stroke + eocc_dx1 stroke <= eocc_x1 preload)%Q ->
     defineCouplers numTypesInGroup preloads strokes
     = Raise (AssertionError "stroke is too small")) /\
  (forall dcar cti varargin,
     ~ recognized_dcar (default_dcar dcar) ->
     exists msg,
       defineCarGroups dcar cti varargin = Some (Raise (ValueError msg))) /\
  (forall (R : Type) coupler_inputs (simulate : _ -> _ -> result R)
          dcar cti e,
     let dcar' := match dcar with DNone => DNum 5 | _ => dcar end in
     let n0 := Z.of_nat (length cti) in
     (defineCarGroups dcar' cti ["-equalizeSize"%string] = Some (Raise e) ->
      runFastSimM coupler_inputs simulate dcar cti = Some (Raise e)) /\
     (forall cg last,
        defineCarGroups dcar' cti ["-equalizeSize"%string] = Some (Ok cg) ->
        py_index cg (-1) = Ok last ->
        (let '(nt, pl, st) :=
           coupler_inputs (if negb (last =? n0) then cg ++ [n0] else cg) in
         defineCouplers nt pl st = Raise e) ->
        runFastSimM coupler_inputs simulate dcar cti = Some (Raise e))).
Proof.
  split; [|split; [|split]].
  - intros spec a b Ha Hb [H|H].
    + rewrite (check_units_force spec a b); eauto.
    + by apply (check_units_displacement spec a b).
  - intros. by eapply defineCouplers_stroke.
  - apply defineCarGroups_unrecognized.
  - intros R ci sim dcar cti e dcar' n0. split.
    + intros H. unfold runFastSimM, initFastSim. fold dcar'. by rewrite H.
    + intros cg last H Hl Hc. unfold runFastSimM, initFastSim.
      fold dcar' n0. rewrite H. simpl. rewrite Hl. simpl.
      destruct (ci _) as [[nt pl] st]. by rewrite Hc.
Qed.

(** A grouping limit of an unknown type, and an EOCC coupler of preload
    100 kips with a stroke of half an inch. *)
Lemma configuration_errors_witness :
  (exists msg, defineCarGroups DOther [1; 1] [] = Some (Raise (ValueError msg))) /\
  defineCouplers [[2]]%Q [[100]]%Q [[1 # 2]]%Q
  = Raise (AssertionError "stroke is too small") /\
  runFastSimM (fun _ => ([[2]]%Q, [[100]]%Q, [[28]]%Q))
    (fun _ _ => Ok tt) DOther [1; 1]
  = Some (Raise (ValueError "dcar: unknown type")).
Proof.
  destruct configuration_errors_before_integration as (_ & H2 & H3 & H4).
  split; [|split].
  - apply H3. simpl. tauto.
  - apply (H2 [[2]]%Q [[100]]%Q [[1 # 2]]%Q [100]%Q [1 # 2]%Q 0%nat
             100%Q (1 # 2)%Q); try reflexivity; discriminate.
  - apply H4. reflexivity.
Defined.

(** ** Car groups: partitions *)

Section partition_facts.
Variables (ctyp : list Z) (limit : Z -> result Z).

Lemma lastZ_app (lo : Z) (l1 l2 : list Z) :
  lastZ lo (l1 ++ l2) = lastZ (lastZ lo l1) l2.
Proof.
  unfold lastZ. destruct l2 as [|a l2 _] using rev_ind.
  - by rewrite app_nil_r.
  - by rewrite app_assoc, !last_snoc.
Qed.

Lemma lastZ_snoc (lo : Z) (l : list Z) (a : Z) : lastZ lo (l ++ [a]) = a.
Proof. unfold lastZ. by rewrite last_snoc. Qed.

Lemma lastZ_cons (lo a : Z) (l : list Z) : lastZ lo (a :: l) = lastZ a l.
Proof.
  unfold lastZ. revert lo a. induction l as [|b l IH]; intros lo a; [done|].
  rewrite last_cons_cons. by rewrite (IH lo b), (IH a b).
Qed.

Lemma groups_ok_app (lo : Z) (l1 l2 : list Z) :
  groups_ok ctyp limit lo (l1 ++ l2) <->
  groups_ok ctyp limit lo l1 /\ groups_ok ctyp limit (lastZ lo l1) l2.
Proof.
  revert lo. induction l1 as [|a l1 IH]; intros lo; simpl.
  - unfold lastZ. simpl. tauto.
  - rewrite IH, lastZ_cons. tauto.
Qed.

Lemma groups_ok_le (lo : Z) (l : list Z) :
  groups_ok ctyp limit lo l -> lo <= lastZ lo l.
Proof.
  revert lo. induction l as [|a l IH]; intros lo; simpl.
  - unfold lastZ. simpl. lia.
  - intros [[Hlt _] H]. apply IH in H. rewrite lastZ_cons. lia.
Qed.

Lemma groups_ok_above (lo : Z) (l : list Z) (j : nat) (b : Z) :
  groups_ok ctyp limit lo l -> l !! j = Some b -> lo < b.
Proof.
  revert lo j. induction l as [|c l IH]; intros lo j H Hj; [done|].
  destruct H as [[Hlt _] H]. destruct j as [|j]; simpl in Hj.
  - by injection Hj as <-.
  - pose proof (IH c j H Hj). lia.
Qed.

(** The boundaries of a partition increase strictly. *)
Lemma groups_ok_increasing (lo : Z) (l : list Z) (i j : nat) (a b : Z) :
  groups_ok ctyp limit lo l -> (i < j)%nat ->
  l !! i = Some a -> l !! j = Some b -> lo < a /\ a < b.
Proof.
  revert lo i j. induction l as [|c l IH]; intros lo i j H Hij Hi Hj; [done|].
  destruct H as [[Hlt _] H]. destruct j as [|j]; [lia|]. simpl in Hj.
  destruct i as [|i]; simpl in Hi.
  - injection Hi as <-. split; [done|]. by apply (groups_ok_above c l j).
  - destruct (IH c i j H ltac:(lia) Hi Hj). lia.
Qed.
End partition_facts.

(** ** Car groups: the scan *)

Section scan_facts.
Variables (dcar : dcar_arg) (dcarVec ctyp : list Z).
Let limit := group_size_limit dcar dcarVec.

Hypothesis limits_ok :
  forall t, t ∈ ctyp -> exists l, limit t = Ok l /\ 1 <= l.

Lemma scan_step_inv (i : nat) (s : scan_state) :
  scan_inv ctyp limit i s -> (S i < length ctyp)%nat ->
  exists s', scan_step dcar dcarVec ctyp s (S i) = Ok s' /\ scan_inv ctyp limit (S i) s'.
Proof.
  intros (closed & t & l & Hcg & Hkg & Hok & Hk & Hk1 & Hl & Hkl & Hty) Hi.
  pose proof (groups_ok_le ctyp limit 0 closed Hok) as Hlo.
  assert (Ht : ctyp !! i = Some t).
  { rewrite <- (Nat2Z.id i). apply Hty. lia. }
  destruct (lookup_lt_is_Some_2 ctyp (S i) Hi) as [ti Hti].
  unfold scan_step, idx. replace (S i - 1)%nat with i by lia.
  rewrite Ht. simpl. fold limit. rewrite Hl. simpl. rewrite Hti. simpl.
  destruct ((l <? scan_k s + 1) || negb (t =? ti)) eqn:Ec.
  - (* a new group starts at vehicle [S i] *)
    rewrite decide_True by (rewrite Hcg, length_app, Hkg; simpl; lia).
    destruct (limits_ok ti) as (l' & Hl' & Hl1).
    { eapply list_elem_of_lookup_2. exact Hti. }
    eexists. split; [reflexivity|].
    exists (closed ++ [Z.of_nat i + 1]), ti, l'. simpl.
    rewrite lastZ_snoc, length_app. simpl.
    split; [by rewrite Hcg, Nat2Z.inj_succ|].
    split; [lia|].
    split.
    { apply groups_ok_app. split; [done|]. simpl. split; [|done].
      split; [lia|]. exists t, l. split; [done|]. split; [lia|].
      intros v Hv. apply Hty. lia. }
    split; [lia|]. split; [lia|]. split; [done|]. split; [lia|].
    intros v Hv. replace v with (Z.of_nat (S i)) by lia.
    by rewrite Nat2Z.id.
  - (* vehicle [S i] joins the open group *)
    apply orb_false_iff in Ec as [Ec1 Ec2].
    apply Z.ltb_ge in Ec1. apply negb_false_iff, Z.eqb_eq in Ec2. subst ti.
    rewrite decide_False by (rewrite Hcg, length_app, Hkg; simpl; lia).
    unfold set_idx.
    rewrite decide_True by (rewrite Hcg, length_app, Hkg; simpl; lia).
    simpl. eexists. split; [reflexivity|].
    exists closed, t, l. simpl.
    split.
    { rewrite Hcg, Hkg. replace (S (length closed) - 1)%nat
        with (length closed + 0)%nat by lia.
      rewrite insert_app_r. simpl. by rewrite Nat2Z.inj_succ. }
    split; [done|]. split; [done|]. split; [lia|]. split; [lia|].
    split; [done|]. split; [lia|].
    intros v Hv. destruct (decide (v = Z.of_nat (S i))) as [->|Hne].
    + by rewrite Nat2Z.id.
    + apply Hty. lia.
Qed.

Lemma scan_fold_inv (m i : nat) (s : scan_state) :
  scan_inv ctyp limit i s -> (i + m < length ctyp)%nat ->
  exists s', rfoldM (scan_step dcar dcarVec ctyp) s (seq (S i) m) = Ok s' /\
             scan_inv ctyp limit (i + m) s'.
Proof.
  revert i s. induction m as [|m IH]; intros i s Hinv Hlen; simpl.
  - exists s. by rewrite Nat.add_0_r.
  - destruct (scan_step_inv i s Hinv) as (s1 & -> & H1); [lia|]. simpl.
    destruct (IH (S i) s1 H1) as (s' & -> & H'); [lia|].
    exists s'. split; [done|]. by replace (i + S m)%nat with (S i + m)%nat by lia.
Qed.

Lemma scan_groups_partition :
  ctyp <> [] ->
  exists cargroup, scan_groups dcar dcarVec ctyp = Ok cargroup /\
                   partition_ok ctyp limit cargroup.
Proof.
  intros Hne.
  assert (Hpos : (0 < length ctyp)%nat).
  { clear limits_ok. destruct ctyp; [done|simpl; lia]. }
  destruct (lookup_lt_is_Some_2 ctyp 0 Hpos) as [t0 Ht0].
  destruct (limits_ok t0) as (l0 & Hl0 & Hl1);
    [eapply list_elem_of_lookup_2; exact Ht0|].
  assert (H0 : scan_inv ctyp limit 0 (mk_scan 1 1 [1])).
  { exists [], t0, l0. simpl. unfold lastZ. simpl.
    repeat split; try done; try lia.
    intros v Hv. by replace v with 0 by lia. }
  destruct (scan_fold_inv (length ctyp - 1) 0 _ H0) as (s & Hs & Hinv); [lia|].
  unfold scan_groups. rewrite Hs. simpl. eexists. split; [reflexivity|].
  destruct Hinv as (closed & t & l & Hcg & Hkg & Hok & Hk & Hk1 & Hl & Hkl & Hty).
  pose proof (groups_ok_le ctyp limit 0 closed Hok) as Hlo.
  rewrite Hcg, Hkg.
  rewrite firstn_all2 by (rewrite length_app; simpl; lia).
  split.
  - apply groups_ok_app. split; [done|]. simpl. split; [|done].
    split; [lia|]. exists t, l. split; [done|]. split; [lia|].
    intros v Hv. apply Hty. lia.
  - rewrite last_snoc. f_equal. lia.
Qed.
End scan_facts.

(** ** Car groups: evenly spaced boundaries *)

Lemma lin_exact (lo hi : Z) (g k : nat) (z : Z) :
  (0 < g)%nat -> Z.of_nat k * (hi - lo) = (z - lo) * Z.of_nat g ->
  lin lo hi g k = z.
Proof.
  intros Hg H. unfold lin. apply round_half_even_inject.
  assert (Hg' : ~ (inject_Z (Z.of_nat g) == 0)%Q).
  { rewrite (inject_Z_injective (Z.of_nat g) 0). lia. }
  assert (E : (inject_Z (Z.of_nat k) * inject_Z (hi - lo)
               == inject_Z (z - lo) * inject_Z (Z.of_nat g))%Q).
  { rewrite <- !inject_Z_mult. by rewrite H. }
  rewrite (inject_Z_minus z lo) in E. unfold Qminus in E.
  field_simplify_eq; [|done]. rewrite E. ring.
Qed.

Lemma lin_0 (lo hi : Z) (g : nat) : (0 < g)%nat -> lin lo hi g 0 = lo.
Proof. intros Hg. apply lin_exact; [done|]. lia. Qed.

Lemma lin_last (lo hi : Z) (g : nat) : (0 < g)%nat -> lin lo hi g g = hi.
Proof. intros Hg. apply lin_exact; [done|]. lia. Qed.

Lemma linspace_round_lin (lo hi : Z) (num g k : nat) :
  num = S g -> (0 < g)%nat -> (k <= g)%nat ->
  linspace_round lo hi num k = lin lo hi g k.
Proof.
  intros -> Hg Hk. unfold linspace_round.
  destruct (decide _) as [E|E].
  - replace k with g by lia. by rewrite lin_last.
  - unfold lin. by replace (Z.of_nat (S g) - 1) with (Z.of_nat g) by lia.
Qed.

(** Consecutive rounded points of an even spacing between 1 and [l] are
    between 1 and [l] apart. *)
Lemma lin_diff (lo hi l : Z) (g k : nat) :
  (0 < g)%nat ->
  Z.of_nat g <= hi - lo -> hi - lo <= Z.of_nat g * l ->
  1 <= lin lo hi g (S k) - lin lo hi g k <= l.
Proof.
  intros Hg H1 H2.
  destruct (decide (hi - lo = Z.of_nat g)) as [E1|E1].
  { rewrite (lin_exact lo hi g (S k) (lo + Z.of_nat (S k))) by (done || nia).
    rewrite (lin_exact lo hi g k (lo + Z.of_nat k)) by (done || nia). nia. }
  destruct (decide (hi - lo = Z.of_nat g * l)) as [E2|E2].
  { rewrite (lin_exact lo hi g (S k) (lo + Z.of_nat (S k) * l)) by (done || nia).
    rewrite (lin_exact lo hi g k (lo + Z.of_nat k * l)) by (done || nia). nia. }
  unfold lin.
  set (step := (inject_Z (hi - lo) / inject_Z (Z.of_nat g))%Q).
  assert (Hgq : (0 < inject_Z (Z.of_nat g))%Q).
  { change 0%Q with (inject_Z 0). rewrite <- Zlt_Qlt. lia. }
  assert (Hs1 : (1 < step)%Q).
  { apply Qlt_shift_div_l; [done|]. rewrite Qmult_1_l. rewrite <- Zlt_Qlt. lia. }
  assert (Hs2 : (step < inject_Z l)%Q).
  { apply Qlt_shift_div_r; [done|]. rewrite <- inject_Z_mult, <- Zlt_Qlt. lia. }
  pose proof (round_half_even_bounds
                (inject_Z (Z.of_nat (S k)) * step + inject_Z lo)) as [A1 A2].
  pose proof (round_half_even_bounds
                (inject_Z (Z.of_nat k) * step + inject_Z lo)) as [B1 B2].
  set (r1 := round_half_even (inject_Z (Z.of_nat (S k)) * step + inject_Z lo))
    in *.
  set (r0 := round_half_even (inject_Z (Z.of_nat k) * step + inject_Z lo)) in *.
  rewrite Nat2Z.inj_succ in A1, A2. unfold Z.succ in A1, A2.
  rewrite inject_Z_plus in A1, A2. change (inject_Z 1) with 1%Q in A1, A2.
  assert (D1 : (inject_Z 0 < inject_Z (r1 - r0))%Q).
  { rewrite inject_Z_minus. change (inject_Z 0) with 0%Q. unfold Qminus. lra. }
  assert (D2 : (inject_Z (r1 - r0) < inject_Z (l + 1))%Q).
  { rewrite inject_Z_minus, inject_Z_plus. change (inject_Z 1) with 1%Q.
    unfold Qminus. lra. }
  rewrite <- Zlt_Qlt in D1, D2. lia.
Qed.

Lemma lin_mono (lo hi l : Z) (g k k' : nat) :
  (0 < g)%nat ->
  Z.of_nat g <= hi - lo -> hi - lo <= Z.of_nat g * l ->
  (k <= k')%nat -> lin lo hi g k <= lin lo hi g k'.
Proof.
  intros Hg H1 H2 Hk. induction Hk as [|k' _ IH]; [lia|].
  pose proof (lin_diff lo hi l g k' Hg H1 H2). lia.
Qed.

Section equalize_facts.
Variables (ctyp : list Z) (limit : Z -> result Z).

(** A run of groups whose last vehicles all have type [t]: every vehicle
    of the run has type [t], and with [n] groups of at most [l] vehicles
    the run has between [n] and [n l] vehicles. *)
Lemma run_typed (t l lo : Z) (seg : list Z) :
  groups_ok ctyp limit lo seg -> limit t = Ok l -> 0 <= lo ->
  (forall hi, hi ∈ seg -> ctyp !! Z.to_nat (hi - 1) = Some t) ->
  (forall v, lo <= v < lastZ lo seg -> ctyp !! Z.to_nat v = Some t) /\
  Z.of_nat (length seg) <= lastZ lo seg - lo <= Z.of_nat (length seg) * l.
Proof.
  revert lo. induction seg as [|hi seg IH]; intros lo Hok Hl Hlo Hty.
  - unfold lastZ. simpl. split; [intros; lia | lia].
  - destruct Hok as [(Hlt & t' & l' & Hl' & Hsz & Hv) Hok].
    assert (t' = t).
    { pose proof (Hv (hi - 1) ltac:(lia)) as E.
      rewrite (Hty hi) in E by left. by injection E. }
    subst t'. assert (l' = l) by congruence. subst l'.
    destruct (IH hi Hok Hl ltac:(lia)) as [IH1 IH2].
    { intros h Hh. apply Hty. by right. }
    rewrite lastZ_cons.
    split.
    + intros v Hvr. destruct (decide (v < hi)); [apply Hv | apply IH1]; lia.
    + simpl length. nia.
Qed.

(** The evenly spaced boundaries of a run of one type form groups of
    that type within its limit. *)
Lemma lin_groups_ok (t l lo hi : Z) (g : nat) :
  (0 < g)%nat -> 0 <= lo -> limit t = Ok l ->
  Z.of_nat g <= hi - lo -> hi - lo <= Z.of_nat g * l ->
  (forall v, lo <= v < hi -> ctyp !! Z.to_nat v = Some t) ->
  forall m k, (k + m = g)%nat ->
    groups_ok ctyp limit (lin lo hi g k) (lin lo hi g <$> seq (S k) m).
Proof.
  intros Hg Hlo Hl H1 H2 Hty m. induction m as [|m IH]; intros k Hk; [done|].
  simpl. split.
  - pose proof (lin_diff lo hi l g k Hg H1 H2) as Hd.
    pose proof (lin_mono lo hi l g 0 k Hg H1 H2 ltac:(lia)) as Hm0.
    pose proof (lin_mono lo hi l g (S k) g Hg H1 H2 ltac:(lia)) as Hm1.
    rewrite lin_0 in Hm0 by done. rewrite lin_last in Hm1 by done.
    split; [lia|]. exists t, l. split; [done|]. split; [lia|].
    intros v Hv. apply Hty. lia.
  - apply IH. lia.
Qed.

Lemma lin_groups_last (lo hi : Z) (g : nat) :
  (0 < g)%nat -> lastZ lo (lin lo hi g <$> seq 1 g) = hi.
Proof.
  intros Hg. destruct g as [|g]; [lia|].
  rewrite seq_S, fmap_app. simpl. rewrite lastZ_snoc. by apply lin_last.
Qed.
End equalize_facts.

(** Writing [F j] at the positions [a .. a+m-1] of a list. *)
Lemma write_range (F : nat -> Z) (m a : nat) (eq : list Z) :
  (a + m <= length eq)%nat ->
  rfoldM (fun eq j => set_idx eq j (F j)) eq (seq a m)
  = Ok (take a eq ++ (F <$> seq a m) ++ drop (a + m) eq).
Proof.
  revert a eq. induction m as [|m IH]; intros a eq Hlen; simpl.
  - by rewrite Nat.add_0_r, take_drop.
  - unfold set_idx at 1. rewrite decide_True by lia. simpl.
    rewrite IH by (rewrite length_insert; lia). f_equal.
    rewrite take_insert_lt by lia.
    rewrite drop_insert_lt by lia.
    destruct (lookup_lt_is_Some_2 eq a ltac:(lia)) as [x Hx].
    rewrite (take_S_r _ _ _ Hx).
    replace a with (length (take a eq) + 0)%nat at 1
      by (rewrite length_take; lia).
    rewrite insert_app_r. simpl.
    rewrite <- app_assoc. simpl.
    by replace (S (a + m)) with (a + S m)%nat by lia.
Qed.

(** ** Car groups: the equalising pass *)

Lemma lastZ_take_S (lo : Z) (l : list Z) (j : nat) (hi : Z) :
  l !! j = Some hi -> lastZ lo (take (S j) l) = hi.
Proof.
  intros H. rewrite (take_S_r _ _ _ H). apply lastZ_snoc.
Qed.

Lemma cons_lookup_lastZ (lo : Z) (l : list Z) (i : nat) :
  (i <= length l)%nat -> (lo :: l) !! i = Some (lastZ lo (take i l)).
Proof.
  intros Hi. destruct i as [|i]; [done|]. simpl.
  destruct (lookup_lt_is_Some_2 l i ltac:(lia)) as [hi Hhi].
  by rewrite Hhi, (lastZ_take_S lo l i hi).
Qed.

Section equalize_loop_facts.
Variables (ctyp : list Z) (limit : Z -> result Z) (cargroup : list Z).
Hypothesis cargroup_ok : groups_ok ctyp limit 0 cargroup.

Lemma groups_ok_split (i : nat) :
  groups_ok ctyp limit 0 (take i cargroup) /\
  groups_ok ctyp limit (lastZ 0 (take i cargroup)) (drop i cargroup).
Proof. apply groups_ok_app. by rewrite take_drop. Qed.

Lemma group_at (j : nat) (hi : Z) :
  cargroup !! j = Some hi ->
  0 <= lastZ 0 (take j cargroup) /\
  group_ok ctyp limit (lastZ 0 (take j cargroup)) hi.
Proof.
  intros H. destruct (groups_ok_split j) as [H1 H2].
  split; [by apply (groups_ok_le ctyp limit)|].
  rewrite (drop_S _ _ _ H) in H2. by destruct H2.
Qed.

(** The type of a group is the type of its last vehicle. *)
Lemma group_type_at (j : nat) (hi : Z) :
  cargroup !! j = Some hi ->
  exists t, ctyp !! Z.to_nat (hi - 1) = Some t /\
            group_type ctyp cargroup j = Ok t.
Proof.
  intros H. destruct (group_at j hi H) as [Hlo (Hlt & t & l & _ & _ & Hv)].
  pose proof (Hv (hi - 1) ltac:(lia)) as Ht. exists t. split; [done|].
  unfold group_type, idx. rewrite H. simpl. unfold py_index.
  apply lookup_lt_Some in Ht as Hlen.
  rewrite decide_True by lia. unfold idx. by rewrite Ht.
Qed.

Lemma run_end_spec (i1 : nat) (t1 : Z) (m a : nat) :
  group_type ctyp cargroup i1 = Ok t1 ->
  (a + m = length cargroup)%nat -> (1 <= a)%nat ->
  exists i2, run_end ctyp cargroup i1 (seq a m) = Ok i2 /\
    (a - 1 <= i2 <= length cargroup - 1)%nat /\
    forall j, (a <= j <= i2)%nat -> group_type ctyp cargroup j = Ok t1.
Proof.
  intros H1. revert a. induction m as [|m IH]; intros a Hlen Ha; simpl.
  - eexists. split; [done|]. split; [lia|]. intros j Hj. lia.
  - destruct (lookup_lt_is_Some_2 cargroup a ltac:(lia)) as [hi Hhi].
    destruct (group_type_at a hi Hhi) as (t & _ & Ht). rewrite Ht, H1. simpl.
    destruct (t =? t1) eqn:E; simpl.
    + apply Z.eqb_eq in E. subst t.
      destruct (IH (S a) ltac:(lia) ltac:(lia)) as (i2 & -> & Hr & Hty).
      exists i2. split; [done|]. split; [lia|]. intros j Hj.
      destruct (decide (j = a)) as [->|]; [done|]. apply Hty. lia.
    + eexists. split; [done|]. split; [lia|]. intros j Hj. lia.
Qed.


Lemma equalize_step_inv (i : nat) (eq : list Z) :
  equalize_inv ctyp limit cargroup i eq ->
  (i < length cargroup - 1)%nat ->
  exists eq' i', equalize_step ctyp cargroup eq i = Ok (eq', i') /\
    (i < i')%nat /\ equalize_inv ctyp limit cargroup i' eq'.
Proof.
  intros (Hlen & Hi & Hdrop & Hok & Hlast) Hlt.
  unfold equalize_step.
  destruct (lookup_lt_is_Some_2 cargroup i ltac:(lia)) as [hi1 Hhi1].
  unfold idx at 1. rewrite Hhi1. cbn [of_option rbind].
  destruct (group_type_at i hi1 Hhi1) as (t1 & Ht1 & Hg1).
  destruct (run_end_spec i t1 (length cargroup - (i + 1)) (i + 1) Hg1)
    as (i2 & Hre & Hr & Hty); [lia|lia|].
  rewrite Hre. cbn [rbind].
  destruct (lookup_lt_is_Some_2 cargroup i2 ltac:(lia)) as [hi Hhi].
  unfold idx at 1. rewrite Hhi. cbn [of_option rbind].
  unfold idx at 1. rewrite (cons_lookup_lastZ 0 cargroup i) by lia.
  cbn [of_option rbind].
  unfold idx at 1. rewrite (cons_lookup_lastZ 0 cargroup (i2 + 1)) by lia.
  cbn [of_option rbind].
  replace (take (i2 + 1) cargroup) with (take (S i2) cargroup)
    by (f_equal; lia).
  rewrite (lastZ_take_S 0 cargroup i2 hi Hhi).
  set (lo := lastZ 0 (take i cargroup)).
  set (g := (i2 - i + 1)%nat).
  rewrite write_range by lia. cbn [rbind].
  do 2 eexists. split; [reflexivity|]. split; [lia|].
  (* the original run [i .. i2] *)
  destruct (group_at i hi1 Hhi1) as [Hlo0 (_ & t & l & Hl & _ & Hv1)].
  fold lo in Hlo0, Hv1.
  assert (t = t1).
  { destruct (group_at i hi1 Hhi1) as [_ (Hlt1 & _)]. fold lo in Hlt1.
    pose proof (Hv1 (hi1 - 1) ltac:(lia)) as E. rewrite Ht1 in E.
    by injection E. }
  subst t.
  destruct (groups_ok_split i) as [_ Hseg]. fold lo in Hseg.
  assert (Hrun : drop i cargroup
                 = take g (drop i cargroup) ++ drop (S i2) cargroup).
  { rewrite <- (take_drop g (drop i cargroup)) at 1. f_equal.
    rewrite drop_drop. f_equal. lia. }
  rewrite Hrun in Hseg. apply groups_ok_app in Hseg as [Hseg _].
  assert (Hseglen : length (take g (drop i cargroup)) = g).
  { rewrite length_take, length_drop. lia. }
  assert (Hseglast : lastZ lo (take g (drop i cargroup)) = hi).
  { replace g with (S (i2 - i)) by lia. apply lastZ_take_S.
    rewrite lookup_drop. by replace (i + (i2 - i))%nat with i2 by lia. }
  destruct (run_typed ctyp limit t1 l lo _ Hseg Hl Hlo0) as [Htyp Hsz].
  { intros h Hh. apply list_elem_of_lookup in Hh as [k Hk].
    apply lookup_take_Some in Hk as [Hk Hkg]. rewrite lookup_drop in Hk.
    destruct (group_type_at (i + k) h Hk) as (t & Ht & Hg).
    destruct (decide (k = 0)%nat) as [->|].
    - rewrite Nat.add_0_r in Hg. congruence.
    - rewrite Hty in Hg by lia. congruence. }
  rewrite Hseglen, Hseglast in Hsz. rewrite Hseglast in Htyp.
  (* the new boundaries *)
  assert (Hnew : ((fun j => linspace_round lo hi (i2 - i + 2) (j - i + 1))
                    <$> seq i (i2 - i)) ++ [hi]
                 = lin lo hi g <$> seq 1 g).
  { replace g with (S (i2 - i)) at 2 by lia.
    rewrite seq_S, fmap_app. simpl.
    replace (S (i2 - i)) with g by lia. rewrite lin_last by lia. f_equal.
    apply list_eq. intros k. rewrite !list_lookup_fmap.
    destruct (decide (k < i2 - i)%nat) as [Hk|Hk].
    - rewrite !lookup_seq_lt by done. simpl. f_equal.
      rewrite (linspace_round_lin lo hi _ g) by lia. f_equal. lia.
    - by rewrite !lookup_seq_ge by lia. }
  assert (Hd2 : drop i2 eq = hi :: drop (S i2) cargroup).
  { replace i2 with (i + (i2 - i))%nat at 1 by lia.
    rewrite <- drop_drop, Hdrop, drop_drop.
    replace (i + (i2 - i))%nat with i2 by lia. by apply drop_S. }
  replace (i + (i2 - i))%nat with i2 by lia. rewrite Hd2.
  assert (Hshape : take i eq
                   ++ ((fun j => linspace_round lo hi (i2 - i + 2) (j - i + 1))
                         <$> seq i (i2 - i))
                   ++ hi :: drop (S i2) cargroup
                   = (take i eq ++ (lin lo hi g <$> seq 1 g))
                     ++ drop (S i2) cargroup).
  { rewrite <- Hnew, <- !app_assoc. done. }
  rewrite Hshape.
  assert (Hl1 : length (take i eq ++ (lin lo hi g <$> seq 1 g)) = S i2).
  { rewrite length_app, length_take, length_fmap, length_seq. lia. }
  unfold equalize_inv. replace (i2 + 1)%nat with (S i2) by lia.
  split.
  { rewrite length_app, Hl1, length_drop. lia. }
  split; [lia|].
  split.
  { rewrite drop_app_length'; [done|]. rewrite Hl1. lia. }
  rewrite take_app_length' by (rewrite Hl1; lia).
  split.
  - apply groups_ok_app. split; [done|]. rewrite Hlast. fold lo.
    rewrite <- (lin_0 lo hi g) at 1 by lia.
    apply (lin_groups_ok ctyp limit t1 l lo hi g); try done; lia.
  - rewrite lastZ_app, Hlast. fold lo. rewrite lin_groups_last by lia.
    by rewrite (lastZ_take_S 0 cargroup i2 hi Hhi).
Qed.

Lemma equalize_inv_final (i : nat) (eq : list Z) :
  equalize_inv ctyp limit cargroup i eq ->
  groups_ok ctyp limit 0 eq /\ lastZ 0 eq = lastZ 0 cargroup /\
  length eq = length cargroup.
Proof.
  intros (Hlen & Hi & Hdrop & Hok & Hlast).
  destruct (groups_ok_split i) as [_ Hrest].
  rewrite <- (take_drop i eq) at 1 2. rewrite Hdrop.
  split; [|split; [|done]].
  - apply groups_ok_app. split; [done|]. by rewrite Hlast.
  - rewrite lastZ_app, Hlast, <- lastZ_app. by rewrite take_drop.
Qed.

(** With [len(cargroup)] passes allowed the loop ends, and returns a
    partition that ends where the scanned one ends. *)
Lemma equalize_loop_inv (fuel i : nat) (eq : list Z) :
  equalize_inv ctyp limit cargroup i eq ->
  (length cargroup - 1 - i <= fuel)%nat ->
  exists eq', equalize_loop ctyp cargroup fuel eq i = Some (Ok eq') /\
    groups_ok ctyp limit 0 eq' /\ lastZ 0 eq' = lastZ 0 cargroup /\
    length eq' = length cargroup.
Proof.
  revert i eq. induction fuel as [|fuel IH]; intros i eq Hinv Hfuel; simpl.
  - rewrite decide_False by lia. exists eq. split; [done|].
    by apply (equalize_inv_final i).
  - destruct (decide (i < length cargroup - 1)%nat) as [Hlt|Hge].
    + destruct (equalize_step_inv i eq Hinv Hlt) as (eq1 & i1 & -> & Hi1 & Hinv1).
      apply IH; [done|lia].
    + exists eq. split; [done|]. by apply (equalize_inv_final i).
Qed.
End equalize_loop_facts.

(** ** Car groups: the partition returned *)

Lemma type_setup_check (dcar : dcar_arg) (cti dcarVec ctyp : list Z) :
  type_setup dcar cti = Ok (dcarVec, ctyp) ->
  check_dcar dcar = Ok tt /\ length ctyp = length cti.
Proof.
  destruct dcar as [|v|d|]; simpl; try discriminate.
  - intros [= <- <-]. by rewrite length_fmap.
  - unfold get_key, has_key.
    destruct (d !! "eocc100") as [a|] eqn:E1; simpl.
    + destruct (d !! "norm") as [n|]; simpl; [|discriminate].
      destruct (d !! "eocc050") as [c|]; simpl; [|discriminate].
      intros [= <- <-]. split; [|done].
      destruct (bool_decide (is_Some (d !! "eocc"))); done.
    + destruct (d !! "eocc") as [b|] eqn:E2; simpl; [|discriminate].
      destruct (d !! "norm") as [n|]; simpl; [|discriminate].
      intros [= <- <-]. by rewrite length_fmap.
Qed.

Lemma last_lastZ (l : list Z) (lo : Z) :
  l <> [] -> last l = Some (lastZ lo l).
Proof.
  intros Hne. unfold lastZ. destruct (last l) eqn:E; [done|].
  by apply last_None in E.
Qed.

(** C8 (amended).  For a non-empty sequence of coupler types and a
    recognised grouping limit whose entries are all at least 1 (each
    type of the sequence, after the mapping, addressing one of them),
    [defineCarGroups] returns, with or without [-equalizeSize], a list of
    group ends that increases strictly, is positive, ends with the number
    of vehicles, and in which every group holds vehicles of one
    (post-mapping) type only and no more of them than the limit of that
    type.  The result is a function of the arguments. *)
Theorem car_groups_partition (dcar : dcar_arg) (couplerTypeIndex : list Z)
    (varargin : list string) (dcarVec ctyp : list Z) :
  couplerTypeIndex <> [] ->
  type_setup (default_dcar dcar) couplerTypeIndex = Ok (dcarVec, ctyp) ->
  (forall t, t ∈ ctyp ->
     exists l, group_size_limit (default_dcar dcar) dcarVec t = Ok l /\
               1 <= l) ->
  exists cargroup,
    defineCarGroups dcar couplerTypeIndex varargin = Some (Ok cargroup) /\
    partition_ok ctyp (group_size_limit (default_dcar dcar) dcarVec)
      cargroup /\
    last cargroup = Some (Z.of_nat (length couplerTypeIndex)) /\
    (forall i a, cargroup !! i = Some a -> 0 < a) /\
    (forall i j a b, (i < j)%nat ->
       cargroup !! i = Some a -> cargroup !! j = Some b -> a < b).
Proof.
  intros Hne Hts Hlim.
  destruct (type_setup_check _ _ _ _ Hts) as [Hck Hlen].
  assert (Hne' : ctyp <> []).
  { intros ->. destruct couplerTypeIndex; [done|discriminate]. }
  destruct (scan_groups_partition (default_dcar dcar) dcarVec ctyp Hlim Hne')
    as (cg & Hscan & Hok & Hlast).
  set (limit := group_size_limit (default_dcar dcar) dcarVec) in *.
  assert (Hfinal : exists cargroup,
            defineCarGroups dcar couplerTypeIndex varargin
            = Some (Ok cargroup) /\
            groups_ok ctyp limit 0 cargroup /\
            lastZ 0 cargroup = lastZ 0 cg /\ length cargroup = length cg).
  { unfold defineCarGroups. rewrite Hck, Hts. cbn [rbind]. rewrite Hscan.
    cbn [rbind]. destruct (has_switch _ _).
    - apply (equalize_loop_inv ctyp limit cg Hok); [|lia].
      unfold equalize_inv. simpl. rewrite drop_0. repeat split; try done; lia.
    - exists cg. done. }
  destruct Hfinal as (cargroup & Hdef & Hgr & Hl & Hlen').
  assert (Hcg : cg <> []) by (intros ->; discriminate).
  assert (Hcar : cargroup <> []).
  { intros ->. destruct cg; [done|discriminate]. }
  assert (Hlast' : last cargroup = Some (Z.of_nat (length ctyp))).
  { rewrite (last_lastZ cargroup 0 Hcar), Hl, <- (last_lastZ cg 0 Hcg). done. }
  exists cargroup. split; [done|]. split; [done|].
  split; [by rewrite <- Hlen|]. split.
  - intros i a Hi. by apply (groups_ok_above ctyp limit 0 cargroup i a).
  - intros i j a b Hij Hi Hj.
    by destruct (groups_ok_increasing ctyp limit 0 cargroup i j a b).
Qed.

(** Thirteen vehicles of the types [1, 2, 3] with the limits
    [{norm: 3, eocc: 2}] and [-equalizeSize]. *)
Lemma car_groups_partition_witness :
  let dcar := DDict (<["norm" := 3]> (<["eocc" := 2]> ∅)) in
  let cti := [1; 1; 1; 1; 1; 1; 1; 2; 2; 2; 3; 3; 1] in
  exists cargroup,
    defineCarGroups dcar cti ["-equalizeSize"%string] = Some (Ok cargroup) /\
    last cargroup = Some 13.
Proof.
  intros dcar cti.
  destruct (car_groups_partition dcar cti ["-equalizeSize"%string] [3; 2]
              [1; 1; 1; 1; 1; 1; 1; 2; 2; 2; 2; 2; 1])
    as (cargroup & H & _ & Hl & _).
  - discriminate.
  - reflexivity.
  - intros t Ht.
    repeat (apply elem_of_cons in Ht as [->|Ht];
            [eexists; split; [reflexivity|lia]|]).
    by apply elem_of_nil in Ht.
  - exists cargroup. split; [exact H|exact Hl].
Defined.

(** The empty sequence: the result is [[1]], whose last entry is not the
    number of vehicles. *)
Lemma empty_train_one_group :
  defineCarGroups (DNum 5) [] [] = Some (Ok [1]) /\
  defineCarGroups (DNum 5) [] ["-equalizeSize"%string] = Some (Ok [1]) /\
  last [1] <> Some (Z.of_nat (length (@nil Z))).
Proof. repeat split; discriminate. Qed.
